(** * MNIST classification notebook: the elementary TensorFlow implementation

    A shallow embedding of [code/part2_classification.ipynb]: the
    [elementary_network], [elementary_loss] and [elementary_training] graphs,
    the [evaluate] utility and the training loop.

    Numbers.  The notebook computes in [tf.float32].  The graph is embedded
    twice.  In the first embedding every tensor entry is a real number ([R])
    and [tf.exp], [tf.log], [+], [*], [/] are the exact operations on [R]: it
    describes the arithmetic the graph denotes, and carries the analysis of
    the gradient and of the descent step.  The second embedding, module
    [Float32], is the forward pass with float32's range: results too large
    become infinite, results too small become zero, and infinities and nan
    propagate as IEEE 754 prescribes; it carries the statements whose truth
    depends on overflow, underflow or nan.

    Tensors.  A rank-1 tensor is a [list R], a rank-2 tensor a list of rows.
    Integer tensors (labels, predictions) are lists of [Z]. *)

From Stdlib Require Import Reals List ZArith Lia Lra Bool Arith.
Import ListNotations.

Open Scope R_scope.

(** ** Tensors *)

Abbreviation vector := (list R) (only parsing).
Abbreviation matrix := (list (list R)) (only parsing).

(** Sum of the entries of a rank-1 tensor. *)
Definition rsum (v : vector) : R := fold_right Rplus 0 v.

(** Pointwise combination of two lists of the same length. *)
Fixpoint map2 {A B C : Type} (f : A -> B -> C) (xs : list A) (ys : list B) : list C :=
  match xs, ys with
  | x :: xs', y :: ys' => f x y :: map2 f xs' ys'
  | _, _ => []
  end.

Definition dot (a b : vector) : R := rsum (map2 Rmult a b).

(** Column [k] of a matrix given by rows. *)
Definition column (k : nat) (m : matrix) : vector := map (fun row => nth k row 0) m.

(** [tf.matmul a b] for [b] of static shape (_, cols): entry (n, k) is the
    dot product of row [n] of [a] with column [k] of [b]. *)
Definition tf_matmul (cols : nat) (a b : matrix) : matrix :=
  map (fun row => map (fun k => dot row (column k b)) (seq 0 cols)) a.

(** [tf.transpose a] for [a] of static shape (_, cols). *)
Definition tf_transpose (cols : nat) (a : matrix) : matrix :=
  map (fun i => column i a) (seq 0 cols).

(** [tf.reduce_sum(m, axis=0)] for [m] of static shape (_, cols). *)
Definition tf_reduce_sum_axis0 (cols : nat) (m : matrix) : vector :=
  map (fun k => rsum (column k m)) (seq 0 cols).

(** [m + v] with [v] broadcast along axis 0. *)
Definition bias_add (m : matrix) (v : vector) : matrix :=
  map (fun row => map2 Rplus row v) m.

Definition tf_exp (m : matrix) : matrix := map (map exp) m.
Definition tf_log (m : matrix) : matrix := map (map ln) m.

(** [tf.reduce_sum(m, axis=1, keep_dims=True)]: shape (N, 1). *)
Definition tf_reduce_sum_axis1 (m : matrix) : matrix := map (fun row => [rsum row]) m.

(** [m / z] with [z] of shape (N, 1) broadcast along axis 1. *)
Definition div_bcast (m z : matrix) : matrix :=
  map2 (fun row zr => map (fun e => e / hd 0 zr) row) m z.

(** [m + z] with [z] of shape (N, 1) broadcast along axis 1. *)
Definition add_bcast (m z : matrix) : matrix :=
  map2 (fun row zr => map (fun e => e + hd 0 zr) row) m z.

(** Pointwise product and difference of two rank-2 tensors of the same shape. *)
Definition tf_mul (a b : matrix) : matrix := map2 (map2 Rmult) a b.
Definition tf_sub (a b : matrix) : matrix := map2 (map2 Rminus) a b.

(** Product of a scalar with a tensor. *)
Definition scal_vec (c : R) (v : vector) : vector := map (Rmult c) v.
Definition scal_mat (c : R) (m : matrix) : matrix := map (scal_vec c) m.

(** Index of the first maximal entry, scanning from the left ([tf.argmax]
    along one row). [argmax_from i best bv v] is the scan with the current
    best index [best], its value [bv], and [i] the index of the head of [v]. *)
Fixpoint argmax_from (i best : nat) (bv : R) (v : vector) : nat :=
  match v with
  | [] => best
  | x :: v' => if Rlt_dec bv x then argmax_from (S i) i x v'
               else argmax_from (S i) best bv v'
  end.

Definition argmax (v : vector) : nat :=
  match v with
  | [] => 0%nat
  | x :: v' => argmax_from 1 0 x v'
  end.

(** [tf.argmax(m, axis=1)]: one int64 index per row. *)
Definition tf_argmax_axis1 (m : matrix) : list Z := map (fun row => Z.of_nat (argmax row)) m.

(** [tf.one_hot(labels, depth)]: row [n] has a 1 at column [labels[n]] and 0
    elsewhere; a label outside [0, depth) gives a row of zeros. *)
Definition one_hot_row (depth : nat) (label : Z) : vector :=
  map (fun k => if Z.eqb (Z.of_nat k) label then 1 else 0) (seq 0 depth).

Definition tf_one_hot (labels : list Z) (depth : nat) : matrix :=
  map (one_hot_row depth) labels.

(** Number of entries of a rank-2 tensor. *)
Definition numel (m : matrix) : nat := length (concat m).

(** [tf.reduce_mean(m)] over every entry. *)
Definition tf_reduce_mean (m : matrix) : R := rsum (concat m) / INR (numel m).

(** ** The elementary network (cell [elementary_network]) *)

Definition n_in : nat := 784.
Definition n_out : nat := 10.

(** The two [tf.Variable]s: the only state of the session. *)
Record Session : Type := mkSession {
  weights : matrix;   (* shape (784, 10) *)
  bias : vector       (* shape (10,) *)
}.

Definition lin (s : Session) (inp_ : matrix) : matrix :=
  bias_add (tf_matmul n_out inp_ (weights s)) (bias s).

Definition elin (s : Session) (inp_ : matrix) : matrix := tf_exp (lin s inp_).

Definition Z_ (s : Session) (inp_ : matrix) : matrix := tf_reduce_sum_axis1 (elin s inp_).

Definition prob (s : Session) (inp_ : matrix) : matrix := div_bcast (elin s inp_) (Z_ s inp_).

Definition log_prob (s : Session) (inp_ : matrix) : matrix := tf_log (prob s inp_).

Definition pred (s : Session) (inp_ : matrix) : list Z := tf_argmax_axis1 (log_prob s inp_).

(** ** The loss (cell [elementary_loss]) *)

Definition determ (labels_ : list Z) : matrix := tf_one_hot labels_ 10.

Definition loss (s : Session) (inp_ : matrix) (labels_ : list Z) : R :=
  - tf_reduce_mean (tf_mul (determ labels_) (log_prob s inp_)).

(** ** The training step (cell [elementary_training]) *)

(** The notebook's step size. *)
Definition learning_rate : R := 1 / 10.

(** [tf.gradients(loss, [weights, bias])]: the chain rule applied backwards
    through the operations that define [loss], one line per operation, each
    with the gradient TensorFlow registers for it.  [grad_lin] is the part of
    the chain from [loss] back to [lin]. *)
Definition grad_lin (s : Session) (inp_ : matrix) (labels_ : list Z) : matrix :=
  let d := determ labels_ in
  let e := elin s inp_ in
  let z := Z_ s inp_ in
  let p := prob s inp_ in
  let m := tf_mul d (log_prob s inp_) in
  (* loss = - reduce_mean m *)
  let g_m := map (map (fun _ => - (1 / INR (numel m)))) m in
  (* m = determ * log_prob *)
  let g_log_prob := tf_mul g_m d in
  (* log_prob = log prob *)
  let g_prob := tf_mul g_log_prob (map (map Rinv) p) in
  (* prob = elin / Z, numerator and denominator *)
  let g_elin_div := div_bcast g_prob z in
  let g_Z := tf_reduce_sum_axis1
               (tf_mul g_prob (div_bcast (div_bcast (map (map Ropp) e) z) z)) in
  (* Z = reduce_sum elin, added to the direct use of elin *)
  let g_elin := add_bcast g_elin_div g_Z in
  (* elin = exp lin *)
  tf_mul g_elin e.

Definition gradients (s : Session) (inp_ : matrix) (labels_ : list Z) : matrix * vector :=
  let g_lin := grad_lin s inp_ labels_ in
  (* lin = matmul inp weights + bias *)
  (tf_matmul n_out (tf_transpose n_in inp_) g_lin, tf_reduce_sum_axis0 n_out g_lin).

(** [update_ops]: [var.assign(var - learning_rate*grad)] for [weights] and
    [bias], with step size [omega]. *)
Definition update_ops (omega : R) (s : Session) (inp_ : matrix) (labels_ : list Z) : Session :=
  let '(g_weights, g_bias) := gradients s inp_ labels_ in
  {| weights := tf_sub (weights s) (scal_mat omega g_weights);
     bias := map2 Rminus (bias s) (scal_vec omega g_bias) |}.

(** [tf.global_variables_initializer().run()]: [weights] takes the draw of
    [tf.random_normal((784, 10))], whose entry (i, k) is [random_normal i k],
    and [bias] takes [tf.zeros((10))]. *)
Definition global_variables_initializer (random_normal : nat -> nat -> R) : Session :=
  {| weights := map (fun i => map (random_normal i) (seq 0 n_out)) (seq 0 n_in);
     bias := repeat 0 n_out |}.

(** ** Running the graph *)

Inductive error : Type :=
| ShapeMismatch     (* static shapes do not fit: raised while the graph is built *)
| FeedShape         (* session.run: a fed array does not fit its placeholder *)
| NotFed            (* session.run: a placeholder the fetch needs has no value *)
| Incompatible      (* session.run: shapes of two operands differ at run time *)
| ReshapeError      (* np.reshape: the sizes do not fit *)
| NotAnArray.       (* the fetched value is not an integer array *)

Inductive result (A : Type) : Type :=
| OK (a : A)
| Raise (e : error).
Arguments OK {A} a.
Arguments Raise {A} e.

Definition bind {A B : Type} (r : result A) (k : A -> result B) : result B :=
  match r with
  | OK a => k a
  | Raise e => Raise e
  end.

Notation "x <- r ;; k" := (bind r (fun x => k))
  (at level 61, r at next level, right associativity).

(** The values given to the placeholders [inp] and [labels] in one call. *)
Record feed_dict : Type := mkFeed {
  feed_inp : option matrix;
  feed_labels : option (list Z)
}.

(** What a call may ask for. *)
Inductive fetch : Type :=
| Fetch_pred
| Fetch_loss
| Fetch_update_ops.

Inductive value : Type :=
| VInt (v : list Z)
| VFloat (v : R)
| VVars (w : matrix) (b : vector).

Definition row_length_is (n : nat) (row : vector) : bool := Nat.eqb (length row) n.

(** The value fed to [inp], of static shape (None, 784). *)
Definition fed_inp (fd : feed_dict) : result matrix :=
  match feed_inp fd with
  | None => Raise NotFed
  | Some x => if forallb (row_length_is n_in) x then OK x else Raise FeedShape
  end.

(** The value fed to [labels], of static shape (None,), for a batch of
    [n] inputs.  The batches of [next_batch] always have as many labels as
    inputs.  A fed pair whose sizes differ is refused here; TensorFlow
    refuses it too, in [determ*log_prob], unless one of the two sizes is 1,
    which it broadcasts: such feeds are outside this model. *)
Definition fed_labels (fd : feed_dict) (n : nat) : result (list Z) :=
  match feed_labels fd with
  | None => Raise NotFed
  | Some y => if Nat.eqb (length y) n then OK y else Raise Incompatible
  end.

(** [session.run(fetch, feed_dict)]: the fetched value and the session after
    the call.  Only [update_ops] assigns to the variables. *)
Definition session_run (omega : R) (f : fetch) (s : Session) (fd : feed_dict)
  : result (value * Session) :=
  x <- fed_inp fd ;;
  match f with
  | Fetch_pred => OK (VInt (pred s x), s)
  | Fetch_loss =>
      y <- fed_labels fd (length x) ;;
      OK (VFloat (loss s x y), s)
  | Fetch_update_ops =>
      y <- fed_labels fd (length x) ;;
      let s' := update_ops omega s x y in
      OK (VVars (weights s') (bias s'), s')
  end.

(** ** The evaluation utility (function [evaluate]) *)

(** A numpy array: its shape and its entries in row-major order. *)
Record ndarray : Type := mk_ndarray {
  shape : list nat;
  data : list R
}.

Definition size_of (sh : list nat) : nat := fold_right Nat.mul 1%nat sh.

(** [np.reshape(a, [-1, *rest])]: the leading dimension is inferred. *)
Definition np_reshape (a : ndarray) (rest : list nat) : result ndarray :=
  let p := size_of rest in
  if Nat.eqb p 0 then Raise ReshapeError
  else if Nat.eqb (length (data a) mod p) 0
       then OK {| shape := (length (data a) / p)%nat :: rest; data := data a |}
       else Raise ReshapeError.

(** The rows of an array of shape (n, k). *)
Definition rows_of (n k : nat) (d : list R) : matrix :=
  map (fun i => firstn k (skipn (i * k) d)) (seq 0 n).

(** An array as a value for [inp]: it must have rank 2. *)
Definition as_matrix (a : ndarray) : option matrix :=
  match shape a with
  | [n; k] => Some (rows_of n k (data a))
  | _ => None
  end.

(** Static shape of a placeholder; [None] is an unknown dimension. *)
Definition static_shape := list (option nat).

Definition inp : static_shape := [None; Some n_in].

(** [data_placeholder.shape[1:]] as a list of integers. *)
Fixpoint known_dims (sh : static_shape) : option (list nat) :=
  match sh with
  | [] => Some []
  | Some d :: sh' => option_map (cons d) (known_dims sh')
  | None :: _ => None
  end.

(** [a == b] on integer arrays, with numpy's broadcasting of a one-element
    array; arrays that do not broadcast compare as the single value False. *)
Definition np_equal (a b : list Z) : list bool :=
  if Nat.eqb (length a) (length b) then map2 Z.eqb a b
  else if Nat.eqb (length a) 1 then map (Z.eqb (hd 0%Z a)) b
  else if Nat.eqb (length b) 1 then map (fun x => Z.eqb x (hd 0%Z b)) a
  else [false].

Definition b2r (b : bool) : R := if b then 1 else 0.

(** [np.mean] of a boolean array. *)
Definition np_mean (l : list bool) : R := rsum (map b2r l) / INR (length l).

(** [evaluate(result_tensor, data_placeholder)].  [test_images] and
    [test_labels] are the notebook's globals. *)
Definition evaluate (omega : R) (test_images : ndarray) (test_labels : list Z)
    (result_tensor : fetch) (data_placeholder : static_shape) (s : Session)
  : result (R * Session) :=
  match known_dims (tl data_placeholder) with
  | None => Raise ReshapeError
  | Some rest =>
      feed_images <- np_reshape test_images rest ;;
      match as_matrix feed_images with
      | None => Raise FeedShape
      | Some x =>
          r <- session_run omega result_tensor s {| feed_inp := Some x; feed_labels := None |} ;;
          match r with
          | (VInt result, s') => OK (np_mean (np_equal result test_labels), s')
          | _ => Raise NotAnArray
          end
      end
  end.

(** ** The training loop *)

(** What the loop does that can be observed from outside: at iteration [i]
    it ran [update_ops], or it called [print] on the text that
    ["{:.1f}%, ".format(percent)] makes of the number [percent]. *)
Inductive event : Type :=
| Ran_update_ops (i : nat)
| Printed (i : nat) (percent : R).

(** The session, the data source and the output so far. *)
Record World (DataSet : Type) : Type := mkWorld {
  session : Session;
  train_set : DataSet;
  trace : list event
}.
Arguments mkWorld {DataSet} _ _ _.
Arguments session {DataSet} _.
Arguments train_set {DataSet} _.
Arguments trace {DataSet} _.

(** [for i in range(n): body], stopping at the first exception. *)
Definition for_range {A : Type} (n : nat) (body : nat -> A -> result A) (a : A) : result A :=
  fold_left (fun acc i => bind acc (body i)) (seq 0 n) (OK a).

Section Training.

(** The data source: [mnist.train.next_batch(size)] gives a batch of
    inputs with their labels and advances the source. *)
Variable DataSet : Type.
Variable next_batch : DataSet -> nat -> (matrix * list Z) * DataSet.

Variable omega : R.
Variable test_images : ndarray.
Variable test_labels : list Z.

Definition loop_body (i : nat) (w : World DataSet) : result (World DataSet) :=
  let '((inp_, labels_), ds) := next_batch (train_set w) 128 in
  r <- session_run omega Fetch_update_ops (session w)
         {| feed_inp := Some inp_; feed_labels := Some labels_ |} ;;
  let s1 := snd r in
  let tr1 := trace w ++ [Ran_update_ops i] in
  if Nat.eqb (i mod 1000) 0 then
    e <- evaluate omega test_images test_labels Fetch_pred inp s1 ;;
    OK (mkWorld (snd e) ds (tr1 ++ [Printed i (fst e * 100)]))
  else OK (mkWorld s1 ds tr1).

(** [for i in range(iterations): ...]; the notebook runs 100000. *)
Definition training_loop (iterations : nat) (w : World DataSet) : result (World DataSet) :=
  for_range iterations loop_body w.

End Training.

(** ** Building the graph: static shapes *)

(** Two static dimensions fit when one is unknown or both are equal. *)
Definition dim_compatible (a b : option nat) : bool :=
  match a, b with
  | Some x, Some y => Nat.eqb x y
  | _, _ => true
  end.

(** Shape inference of [tf.matmul]. *)
Definition matmul_shape (a b : static_shape) : result static_shape :=
  match a, b with
  | [n; k1], [k2; m] => if dim_compatible k1 k2 then OK [n; m] else Raise ShapeMismatch
  | _, _ => Raise ShapeMismatch
  end.

(** The dimension two broadcast dimensions give: a dimension 1 stretches to
    the other one, an unknown dimension beside a known one larger than 1 is
    that one, and two known dimensions must then agree. *)
Definition broadcast_dim (a b : option nat) : result (option nat) :=
  match a, b with
  | Some 1%nat, d | d, Some 1%nat => OK d
  | Some x, Some y => if Nat.eqb x y then OK (Some x) else Raise ShapeMismatch
  | Some x, None | None, Some x => OK (Some x)
  | None, None => OK None
  end.

(** Shape inference of [m + v] for a rank-2 [m] and a rank-1 [v]. *)
Definition bias_add_shape (m v : static_shape) : result static_shape :=
  match m, v with
  | [n; k], [k'] => d <- broadcast_dim k k' ;; OK [n; d]
  | _, _ => Raise ShapeMismatch
  end.

(** Building [elementary_network] for a placeholder and variables of the
    given static shapes: the shape of [log_prob], or the exception raised by
    the first operation whose operands do not fit.  [exp], [reduce_sum] with
    [keep_dims], the broadcast division and [log] keep the shape of [lin]. *)
Definition build_elementary_network (inp_shape weights_shape bias_shape : static_shape)
  : result static_shape :=
  mm <- matmul_shape inp_shape weights_shape ;;
  bias_add_shape mm bias_shape.

(** ** The forward pass in float32's range *)

Module Float32.

(** A float32 value: a finite number, an infinity or nan.  A finite float is
    identified with the real number it denotes; the sign of a zero is not
    kept, and the rounding of the mantissa is not modelled. *)
Inductive f32 : Type :=
| Fin (r : R)
| PInf
| NInf
| NaN.

(** Results of at least [(2 - 2^-24) * 2^127] in magnitude round to an
    infinity.  Results smaller in magnitude than [2^-126], the smallest
    normal float, are taken to zero: the threads that run TensorFlow's CPU
    kernels have the processor flush subnormal numbers to zero.  (Without
    the flush a result between [2^-149] and [2^-126] would be a subnormal
    float.) *)
Definition overflow_threshold : R := (2 - / 2 ^ 24) * 2 ^ 127.
Definition smallest_normal : R := / 2 ^ 126.

(** The float32 that stands for the exact result [r] of an operation. *)
Definition fit (r : R) : f32 :=
  if Rle_dec overflow_threshold r then PInf
  else if Rle_dec r (- overflow_threshold) then NInf
  else if Rlt_dec (Rabs r) smallest_normal then Fin 0
  else Fin r.

Definition fadd (a b : f32) : f32 :=
  match a, b with
  | NaN, _ | _, NaN => NaN
  | PInf, NInf | NInf, PInf => NaN
  | PInf, _ | _, PInf => PInf
  | NInf, _ | _, NInf => NInf
  | Fin x, Fin y => fit (x + y)
  end.

(** An infinity times the finite [x]: nan for [x = 0], else an infinity whose
    sign is the product of the signs. *)
Definition scaled_inf (x : R) (positive : bool) : f32 :=
  if Req_dec_T x 0 then NaN
  else if Rlt_dec 0 x then (if positive then PInf else NInf)
  else (if positive then NInf else PInf).

Definition fmul (a b : f32) : f32 :=
  match a, b with
  | NaN, _ | _, NaN => NaN
  | Fin x, Fin y => fit (x * y)
  | Fin x, PInf | PInf, Fin x => scaled_inf x true
  | Fin x, NInf | NInf, Fin x => scaled_inf x false
  | PInf, PInf | NInf, NInf => PInf
  | PInf, NInf | NInf, PInf => NInf
  end.

(** Division; a zero divisor is taken as +0, which is the zero a sum of
    exponentials or a count can be. *)
Definition fdiv (a b : f32) : f32 :=
  match a, b with
  | NaN, _ | _, NaN => NaN
  | Fin x, Fin y =>
      if Req_dec_T y 0
      then (if Req_dec_T x 0 then NaN else if Rlt_dec 0 x then PInf else NInf)
      else fit (x / y)
  | Fin _, PInf | Fin _, NInf => Fin 0
  | PInf, Fin y => if Rlt_dec y 0 then NInf else PInf
  | NInf, Fin y => if Rlt_dec y 0 then PInf else NInf
  | PInf, PInf | PInf, NInf | NInf, PInf | NInf, NInf => NaN
  end.

Definition fexp (a : f32) : f32 :=
  match a with
  | Fin x => fit (exp x)
  | PInf => PInf
  | NInf => Fin 0
  | NaN => NaN
  end.

Definition flog (a : f32) : f32 :=
  match a with
  | Fin x => if Rlt_dec 0 x then fit (ln x) else if Rlt_dec x 0 then NaN else NInf
  | PInf => PInf
  | NInf => NaN
  | NaN => NaN
  end.

Definition fneg (a : f32) : f32 :=
  match a with
  | Fin x => Fin (- x)
  | PInf => NInf
  | NInf => PInf
  | NaN => NaN
  end.

(** Sum of the entries of a rank-1 tensor, and the dot product.  (The order
    in which TensorFlow adds the entries is not fixed; it matters for the
    rounding and for which partial sum overflows.) *)
Definition fsum (v : list f32) : f32 := fold_right fadd (Fin 0) v.

Definition fdot (a b : list f32) : f32 := fsum (map2 fmul a b).

(** The operations of [elementary_network]; the variables and the fed
    images hold finite numbers. *)
Definition tf_matmul (cols : nat) (a b : matrix) : list (list f32) :=
  map (fun row => map (fun k => fdot (map Fin row) (map Fin (column k b))) (seq 0 cols)) a.

Definition bias_add (m : list (list f32)) (v : vector) : list (list f32) :=
  map (fun row => map2 fadd row (map Fin v)) m.

Definition lin (s : Session) (inp_ : matrix) : list (list f32) :=
  bias_add (tf_matmul n_out inp_ (weights s)) (bias s).

Definition elin (s : Session) (inp_ : matrix) : list (list f32) :=
  map (map fexp) (lin s inp_).

Definition Z_ (s : Session) (inp_ : matrix) : list (list f32) :=
  map (fun row => [fsum row]) (elin s inp_).

Definition prob (s : Session) (inp_ : matrix) : list (list f32) :=
  map2 (fun row zr => map (fun e => fdiv e (hd (Fin 0) zr)) row) (elin s inp_) (Z_ s inp_).

Definition log_prob (s : Session) (inp_ : matrix) : list (list f32) :=
  map (map flog) (prob s inp_).

(** The value an integer takes in the [tf.int32] placeholder [labels]. *)
Definition int32 (l : Z) : Z := ((l + 2 ^ 31) mod 2 ^ 32 - 2 ^ 31)%Z.

(** The operations of [elementary_loss]. *)
Definition determ (labels_ : list Z) : list (list f32) :=
  map (fun l => map Fin (one_hot_row 10 (int32 l))) labels_.

Definition tf_reduce_mean (m : list (list f32)) : f32 :=
  fdiv (fsum (concat m)) (Fin (INR (length (concat m)))).

Definition loss (s : Session) (inp_ : matrix) (labels_ : list Z) : f32 :=
  fneg (tf_reduce_mean (map2 (map2 fmul) (determ labels_) (log_prob s inp_))).


End Float32.
(** * Notions used to state the properties *)

(** Softmax of one row of [lin], as [elin / Z] computes it. *)
Definition softmax_row (l : vector) : vector :=
  map (fun e => e / rsum (map exp l)) (map exp l).

Definition log_softmax_row (l : vector) : vector := map ln (softmax_row l).


(** The feed of a training step: [{labels: labels_, inp: inp_}]. *)
Definition feed_of (inp_ : matrix) (labels_ : list Z) : feed_dict :=
  {| feed_inp := Some inp_; feed_labels := Some labels_ |}.

(** A batch as [next_batch] gives it: every input has 784 entries and there
    is one label per input. *)
Definition batch_ok (inp_ : matrix) (labels_ : list Z) : Prop :=
  Forall (fun row => length row = n_in) inp_ /\ length labels_ = length inp_.

(** Labels that name one of the ten digits. *)
Definition labels_in_range (labels_ : list Z) : Prop :=
  Forall (fun l => (0 <= l < 10)%Z) labels_.

(** The shapes the variables are created with. *)
Definition shape_ok (s : Session) : Prop :=
  length (weights s) = n_in /\
  Forall (fun row => length row = n_out) (weights s) /\
  length (bias s) = n_out.

(** A session and a batch to try the statements on: all weights 0, one blank
    image labelled 3. *)
Definition zero_session : Session :=
  {| weights := repeat (repeat 0 n_out) n_in; bias := repeat 0 n_out |}.
Definition blank_image : vector := repeat 0 n_in.

(** Held-out data as the notebook prepares it: [n] images of 28 x 28 x 1
    pixels with one label each. *)
Definition held_out_ok (n : nat) (test_images : ndarray) (test_labels : list Z) : Prop :=
  shape test_images = [n; 28; 28; 1]%nat /\
  length (data test_images) = (n * n_in)%nat /\
  length test_labels = n.


(** Held-out data to try the statements on: two blank images, labelled 0 and 3. *)
Definition two_blank_images : ndarray :=
  {| shape := [2; 28; 28; 1]%nat; data := repeat 0 (2 * n_in) |}.

(** Entry (i, k) of a rank-2 tensor. *)
Definition entry (m : matrix) (i k : nat) : R := nth k (nth i m []) 0.

(** [n] optimizer steps in a row, each on the next batch of the source, with
    nothing between them. *)
Fixpoint steps {DataSet : Type} (next_batch : DataSet -> nat -> (matrix * list Z) * DataSet)
    (omega : R) (n : nat) (s : Session) (ds : DataSet) : Session * DataSet :=
  match n with
  | O => (s, ds)
  | S n' =>
      let '((inp_, labels_), ds') := next_batch ds 128%nat in
      steps next_batch omega n' (update_ops omega s inp_ labels_) ds'
  end.

Definition is_update_event (e : event) : bool :=
  match e with
  | Ran_update_ops _ => true
  | Printed _ _ => false
  end.

(** The runs of [update_ops] among the events of a trace. *)
Definition update_events (tr : list event) : list event := filter is_update_event tr.

(** A data source whose batches are always well formed. *)
Definition source_ok {DataSet : Type}
    (next_batch : DataSet -> nat -> (matrix * list Z) * DataSet) : Prop :=
  forall (ds : DataSet) (size : nat),
    batch_ok (fst (fst (next_batch ds size))) (snd (fst (next_batch ds size))).

(** A source that gives the same blank image, labelled 3, again and again. *)
Definition blank_source (ds : unit) (size : nat) : (matrix * list Z) * unit :=
  ((repeat blank_image size, repeat 3%Z size), ds).

(** Held-out data whose samples have 14 x 28 x 1 = 392 entries each, not 784. *)
Definition two_half_images : ndarray :=
  {| shape := [2; 14; 28; 1]%nat; data := repeat 0 n_in |}.

(** *** Moving the parameters along a line *)

(** The parameters [s + t * d]. *)
Definition axpy (t : R) (d s : Session) : Session :=
  {| weights := map2 (map2 (fun w v => w + t * v)) (weights s) (weights d);
     bias := map2 (fun b v => b + t * v) (bias s) (bias d) |}.

(** Inner products of rank-2 tensors and of parameter sets. *)
Definition mdot (a b : matrix) : R := rsum (map2 dot a b).

Definition sdot (g d : Session) : R :=
  mdot (weights g) (weights d) + dot (bias g) (bias d).

(** The gradient as a parameter set, and its opposite. *)
Definition grad_session (s : Session) (inp_ : matrix) (labels_ : list Z) : Session :=
  {| weights := fst (gradients s inp_ labels_); bias := snd (gradients s inp_ labels_) |}.


(** For one row of scores [a + t * c]: the sum of the exponentials and its
    first two derivatives in [t]. *)
Definition S0 (a c : vector) (t : R) : R :=
  rsum (map2 (fun ak ck => exp (ak + t * ck)) a c).
Definition S1 (a c : vector) (t : R) : R :=
  rsum (map2 (fun ak ck => exp (ak + t * ck) * ck) a c).

(** Sum of [f 0], ..., [f (n - 1)]. *)
Definition bigsum (n : nat) (f : nat -> R) : R := rsum (map f (seq 0 n)).

(** The contribution of one sample to the sum in [loss], for a one-hot row
    [d] and scores [a + t * c], with its first and second derivatives in [t]. *)
Definition row_term (d a c : vector) (t : R) : R :=
  dot d a + t * dot d c - rsum d * ln (S0 a c t).

Definition row_term' (d a c : vector) (t : R) : R :=
  dot d c - rsum d * (S1 a c t / S0 a c t).


(** A sample along a line: its one-hot row, its scores and the scores of the
    direction. *)
Definition triples (s d : Session) (inp_ : matrix) (labels_ : list Z)
  : list (list R * (list R * list R)) :=
  combine (determ labels_) (combine (lin s inp_) (lin d inp_)).

Definition on_triple (f : vector -> vector -> vector -> R -> R) (t : R)
    (tr : list R * (list R * list R)) : R :=
  f (fst tr) (fst (snd tr)) (snd (snd tr)) t.

(** The loss along the line [s + t * d] and its first two derivatives. *)
Definition line_loss (s d : Session) (inp_ : matrix) (labels_ : list Z) (t : R) : R :=
  - rsum (map (on_triple row_term t) (triples s d inp_ labels_)) / INR (length inp_ * 10).

Definition line_loss' (s d : Session) (inp_ : matrix) (labels_ : list Z) (t : R) : R :=
  - rsum (map (on_triple row_term' t) (triples s d inp_ labels_)) / INR (length inp_ * 10).


(** The backward chain of [grad_lin] on one sample: one-hot row [dn], scores
    [l], and [c] the gradient that arrives from the mean. *)
Definition backprop_row (c : R) (dn l : vector) : vector :=
  let e := map exp l in
  let z := rsum e in
  let p := map (fun ek => ek / z) e in
  let m := map2 Rmult dn (map ln p) in
  let g_m := map (fun _ => c) m in
  let g_log_prob := map2 Rmult g_m dn in
  let g_prob := map2 Rmult g_log_prob (map Rinv p) in
  let g_elin_div := map (fun g => g / z) g_prob in
  let g_Z := rsum (map2 Rmult g_prob
                     (map (fun ek => ek / z) (map (fun ek => ek / z) (map Ropp e)))) in
  let g_elin := map (fun g => g + g_Z) g_elin_div in
  map2 Rmult g_elin e.



(** The accuracy [evaluate(pred, inp)] returns for the variables [s] on [n]
    held-out images. *)
Definition accuracy (test_images : ndarray) (test_labels : list Z) (n : nat) (s : Session) : R :=
  np_mean (np_equal (pred s (rows_of n n_in (data test_images))) test_labels).

(** What the loop printed: the iteration and the number, in order. *)
Definition printed_values (tr : list event) : list (nat * R) :=
  flat_map (fun e => match e with
                     | Printed i v => [(i, v)]
                     | Ran_update_ops _ => []
                     end) tr.

Definition prints_at (i : nat) : bool := Nat.eqb (i mod 1000) 0.

(** What the loop did, in order, without the numbers: the step of iteration
    [i], or the [print] of iteration [i]. *)
Inductive action : Type :=
| Step (i : nat)
| Print (i : nat).

Definition action_of (e : event) : action :=
  match e with
  | Ran_update_ops i => Step i
  | Printed i _ => Print i
  end.

Definition is_print (a : action) : bool :=
  match a with
  | Print _ => true
  | Step _ => false
  end.



(** *** Values in float32's range *)



(** What [tf.exp] can give: nan, plus infinity, zero, or a positive normal
    number. *)
Definition exp_like (v : Float32.f32) : Prop :=
  match v with
  | Float32.Fin e => e = 0 \/ Float32.smallest_normal <= e
  | Float32.PInf | Float32.NaN => True
  | Float32.NInf => False
  end.

(** Nan, or a number between 0 and 1. *)
Definition probability_or_nan (v : Float32.f32) : Prop :=
  match v with
  | Float32.Fin p => 0 <= p <= 1
  | Float32.NaN => True
  | _ => False
  end.




(** * Properties *)

(** ** Lists and sums *)

Lemma map2_length {A B C : Type} (f : A -> B -> C) (xs : list A) (ys : list B) :
  length (map2 f xs ys) = Nat.min (length xs) (length ys).
Proof.
  revert ys; induction xs as [|x xs IH]; intros [|y ys]; simpl; auto.
Qed.

Lemma map2_map_l {A A' B C : Type} (f : A' -> B -> C) (g : A -> A') xs ys :
  map2 f (map g xs) ys = map2 (fun a b => f (g a) b) xs ys.
Proof.
  revert ys; induction xs as [|x xs IH]; intros [|y ys]; simpl; auto.
  now rewrite IH.
Qed.

Lemma map2_map_r {A B B' C : Type} (f : A -> B' -> C) (g : B -> B') xs ys :
  map2 f xs (map g ys) = map2 (fun a b => f a (g b)) xs ys.
Proof.
  revert ys; induction xs as [|x xs IH]; intros [|y ys]; simpl; auto.
  now rewrite IH.
Qed.

Lemma map_map2 {A B C D : Type} (g : C -> D) (f : A -> B -> C) xs ys :
  map g (map2 f xs ys) = map2 (fun a b => g (f a b)) xs ys.
Proof.
  revert ys; induction xs as [|x xs IH]; intros [|y ys]; simpl; auto.
  now rewrite IH.
Qed.

Lemma map2_diag {A C : Type} (f : A -> A -> C) xs :
  map2 f xs xs = map (fun a => f a a) xs.
Proof. induction xs; simpl; congruence. Qed.

Lemma map2_ext {A B C : Type} (f g : A -> B -> C) xs ys :
  (forall a b, In a xs -> In b ys -> f a b = g a b) -> map2 f xs ys = map2 g xs ys.
Proof.
  revert ys; induction xs as [|x xs IH]; intros [|y ys] H; simpl; auto.
  rewrite H by (simpl; auto). f_equal. apply IH. intros; apply H; simpl; auto.
Qed.

Lemma rsum_app (u v : vector) : rsum (u ++ v) = rsum u + rsum v.
Proof. induction u; simpl; lra. Qed.

Lemma rsum_concat (m : matrix) : rsum (concat m) = rsum (map rsum m).
Proof. induction m; simpl; [|rewrite rsum_app, IHm]; reflexivity. Qed.

Lemma rsum_nonpos (v : vector) : Forall (fun x => x <= 0) v -> rsum v <= 0.
Proof. induction 1; simpl; lra. Qed.

Lemma rsum_nonneg (v : vector) : Forall (fun x => 0 <= x) v -> 0 <= rsum v.
Proof. induction 1; simpl; lra. Qed.

Lemma rsum_map_ext {A : Type} (f g : A -> R) (l : list A) :
  (forall a, In a l -> f a = g a) -> rsum (map f l) = rsum (map g l).
Proof.
  intros H. f_equal. apply map_ext_in, H.
Qed.

Lemma rsum_map_plus {A : Type} (f g : A -> R) (l : list A) :
  rsum (map (fun a => f a + g a) l) = rsum (map f l) + rsum (map g l).
Proof. induction l; simpl; lra. Qed.

Lemma rsum_map_scal {A : Type} (c : R) (f : A -> R) (l : list A) :
  rsum (map (fun a => c * f a) l) = c * rsum (map f l).
Proof. induction l; simpl; lra. Qed.

Lemma rsum_map_const_0 {A : Type} (l : list A) : rsum (map (fun _ => 0) l) = 0.
Proof. induction l; simpl; lra. Qed.

(** ** Rows of the network *)

Lemma div_bcast_rows (m : matrix) :
  div_bcast (tf_exp m) (tf_reduce_sum_axis1 (tf_exp m)) = map softmax_row m.
Proof.
  unfold div_bcast, tf_reduce_sum_axis1, tf_exp.
  induction m as [|row m IH]; simpl; [reflexivity|].
  now rewrite IH.
Qed.

Lemma prob_rows s x : prob s x = map softmax_row (lin s x).
Proof. apply div_bcast_rows. Qed.

Lemma log_prob_rows s x : log_prob s x = map log_softmax_row (lin s x).
Proof.
  unfold log_prob, tf_log. rewrite prob_rows, map_map. reflexivity.
Qed.

Lemma rsum_exp_pos (l : vector) : l <> [] -> 0 < rsum (map exp l).
Proof.
  destruct l as [|a l]; [congruence|intros _]. simpl.
  assert (0 <= rsum (map exp l)).
  { apply rsum_nonneg, Forall_forall. intros y Hy.
    apply in_map_iff in Hy as (z & <- & _). left; apply exp_pos. }
  pose proof (exp_pos a). lra.
Qed.

Lemma rsum_ge_member (v : vector) (x : R) :
  Forall (fun y => 0 <= y) v -> In x v -> x <= rsum v.
Proof.
  induction 1 as [|y v Hy Hv IH]; simpl; [tauto|].
  pose proof (rsum_nonneg v Hv).
  intros [->|Hin]; [lra|]. specialize (IH Hin). lra.
Qed.

Lemma softmax_row_bounds (l : vector) (p : R) :
  In p (softmax_row l) -> 0 < p <= 1.
Proof.
  unfold softmax_row. intros Hp.
  apply in_map_iff in Hp as (e & <- & He).
  assert (Hne : l <> []) by (destruct l; [destruct He|congruence]).
  pose proof (rsum_exp_pos l Hne) as HZ.
  assert (Hpos : 0 < e) by (apply in_map_iff in He as (a & <- & _); apply exp_pos).
  assert (Hle : e <= rsum (map exp l)).
  { apply rsum_ge_member; [|assumption].
    apply Forall_forall. intros y Hy. apply in_map_iff in Hy as (a & <- & _).
    left; apply exp_pos. }
  split.
  - apply Rdiv_lt_0_compat; assumption.
  - apply Rmult_le_reg_r with (rsum (map exp l)); [assumption|].
    unfold Rdiv. rewrite Rmult_assoc, Rinv_l by lra. lra.
Qed.

Lemma log_softmax_row_nonpos (l : vector) (q : R) :
  In q (log_softmax_row l) -> q <= 0.
Proof.
  unfold log_softmax_row. intros Hq.
  apply in_map_iff in Hq as (p & <- & Hp).
  apply softmax_row_bounds in Hp as [Hp0 Hp1].
  destruct (Req_dec p 1) as [->|Hne]; [rewrite ln_1; lra|].
  left. rewrite <- ln_1. apply ln_increasing; lra.
Qed.

Lemma one_hot_row_01 depth label (d : R) :
  In d (one_hot_row depth label) -> d = 0 \/ d = 1.
Proof.
  unfold one_hot_row. intros Hd. apply in_map_iff in Hd as (k & <- & _).
  destruct (Z.eqb _ _); auto.
Qed.

Lemma Forall_map2 {A B C : Type} (P : C -> Prop) (f : A -> B -> C) xs ys :
  (forall a b, In a xs -> In b ys -> P (f a b)) -> Forall P (map2 f xs ys).
Proof.
  revert ys; induction xs as [|x xs IH]; intros [|y ys] H; simpl; constructor.
  - apply H; simpl; auto.
  - apply IH. intros; apply H; simpl; auto.
Qed.

Lemma loss_entries_nonpos s x y :
  Forall (fun v => v <= 0) (concat (tf_mul (determ y) (log_prob s x))).
Proof.
  apply Forall_concat. unfold tf_mul. apply Forall_map2.
  intros d lp Hd Hlp. apply Forall_map2. intros a b Ha Hb.
  unfold determ, tf_one_hot in Hd. apply in_map_iff in Hd as (lbl & <- & _).
  rewrite log_prob_rows in Hlp. apply in_map_iff in Hlp as (l & <- & _).
  apply log_softmax_row_nonpos in Hb.
  apply one_hot_row_01 in Ha as [-> | ->]; lra.
Qed.

Lemma tf_reduce_mean_nonpos (m : matrix) :
  Forall (fun v => v <= 0) (concat m) -> tf_reduce_mean m <= 0.
Proof.
  intros H. unfold tf_reduce_mean, numel.
  apply rsum_nonpos in H.
  destruct (concat m) as [|a l] eqn:E.
  - simpl. unfold Rdiv. rewrite Rmult_0_l. lra.
  - assert (0 < INR (length (a :: l))) by (apply lt_0_INR; simpl; lia).
    unfold Rdiv. assert (0 < / INR (length (a :: l))) by (apply Rinv_0_lt_compat; assumption).
    nra.
Qed.

Lemma loss_nonneg s x y : 0 <= loss s x y.
Proof.
  unfold loss. pose proof (tf_reduce_mean_nonpos _ (loss_entries_nonpos s x y)). lra.
Qed.

(** ** The objective *)

Lemma batch_ok_forallb inp_ labels_ :
  batch_ok inp_ labels_ -> forallb (row_length_is n_in) inp_ = true.
Proof.
  intros [H _]. apply forallb_forall. intros row Hrow.
  rewrite Forall_forall in H. unfold row_length_is. apply Nat.eqb_eq. auto.
Qed.

Lemma fed_inp_ok inp_ labels_ :
  batch_ok inp_ labels_ -> fed_inp (feed_of inp_ labels_) = OK inp_.
Proof.
  intros H. unfold fed_inp, feed_of; simpl. now rewrite (batch_ok_forallb _ _ H).
Qed.

Lemma fed_labels_ok inp_ labels_ :
  batch_ok inp_ labels_ -> fed_labels (feed_of inp_ labels_) (length inp_) = OK labels_.
Proof.
  intros [_ H]. unfold fed_labels, feed_of; simpl.
  rewrite H, Nat.eqb_refl. reflexivity.
Qed.

Lemma session_run_loss omega s inp_ labels_ :
  batch_ok inp_ labels_ ->
  session_run omega Fetch_loss s (feed_of inp_ labels_) = OK (VFloat (loss s inp_ labels_), s).
Proof.
  intros H. unfold session_run.
  rewrite (fed_inp_ok _ _ H); simpl. rewrite (fed_labels_ok _ _ H); simpl. reflexivity.
Qed.

Lemma blank_batch_ok (l : Z) : batch_ok [blank_image] [l].
Proof.
  split; [|reflexivity]. constructor; [|constructor].
  unfold blank_image. apply repeat_length.
Qed.

(** The product of a one-hot row with a row picks one entry. *)
Lemma dot_one_hot_seq (l : Z) (v : vector) (a : nat) :
  rsum (map2 Rmult (map (fun k => if Z.eqb (Z.of_nat k) l then 1 else 0)
                        (seq a (length v))) v)
  = if ((Z.of_nat a <=? l) && (l <? Z.of_nat (a + length v)))%Z
    then nth (Z.to_nat l - a) v 0 else 0.
Proof.
  revert a. induction v as [|x v IH]; intros a; simpl.
  - destruct ((Z.of_nat a <=? l)%Z) eqn:E1; simpl; [|reflexivity].
    destruct ((l <? Z.of_nat (a + 0))%Z) eqn:E2; [|reflexivity].
    apply Z.leb_le in E1. apply Z.ltb_lt in E2. lia.
  - rewrite IH. destruct (Z.eqb (Z.of_nat a) l) eqn:E.
    + apply Z.eqb_eq in E. subst l.
      replace ((Z.of_nat (S a) <=? Z.of_nat a)%Z) with false
        by (symmetry; apply Z.leb_gt; lia).
      replace ((Z.of_nat a <=? Z.of_nat a)%Z) with true
        by (symmetry; apply Z.leb_le; lia).
      replace ((Z.of_nat a <? Z.of_nat (a + S (length v)))%Z) with true
        by (symmetry; apply Z.ltb_lt; lia).
      simpl. rewrite Nat2Z.id, Nat.sub_diag. lra.
    + apply Z.eqb_neq in E.
      replace (a + S (length v))%nat with (S a + length v)%nat by lia.
      destruct ((l <? Z.of_nat (S a + length v))%Z) eqn:E2;
        rewrite ?andb_false_r, ?andb_true_r.
      * destruct ((Z.of_nat (S a) <=? l)%Z) eqn:E1.
        -- replace ((Z.of_nat a <=? l)%Z) with true
             by (symmetry; apply Z.leb_le; apply Z.leb_le in E1; lia).
           apply Z.leb_le in E1.
           replace (Z.to_nat l - a)%nat with (S (Z.to_nat l - S a)) by lia.
           simpl. lra.
        -- replace ((Z.of_nat a <=? l)%Z) with false
             by (symmetry; apply Z.leb_gt; apply Z.leb_gt in E1; lia).
           lra.
      * lra.
Qed.

Lemma dot_one_hot (depth : nat) (l : Z) (v : vector) :
  length v = depth -> (0 <= l < Z.of_nat depth)%Z ->
  dot (one_hot_row depth l) v = nth (Z.to_nat l) v 0.
Proof.
  intros <- Hl. unfold dot, one_hot_row. rewrite dot_one_hot_seq.
  replace ((Z.of_nat 0 <=? l)%Z) with true by (symmetry; apply Z.leb_le; lia).
  replace ((l <? Z.of_nat (0 + length v))%Z) with true by (symmetry; apply Z.ltb_lt; lia).
  simpl. now rewrite Nat.sub_0_r.
Qed.

Lemma lin_row_length s x row :
  length (bias s) = n_out -> In row (lin s x) -> length row = n_out.
Proof.
  intros Hb Hrow. unfold lin, bias_add, tf_matmul in Hrow.
  rewrite map_map in Hrow. apply in_map_iff in Hrow as (r & <- & _).
  rewrite map2_length, length_map, length_seq, Hb. apply Nat.min_id.
Qed.

Lemma softmax_row_length l : length (softmax_row l) = length l.
Proof. unfold softmax_row. now rewrite !length_map. Qed.

Lemma log_softmax_row_length l : length (log_softmax_row l) = length l.
Proof. unfold log_softmax_row. now rewrite length_map, softmax_row_length. Qed.

Lemma lin_length s x : length (lin s x) = length x.
Proof. unfold lin, bias_add, tf_matmul. now rewrite !length_map. Qed.

Lemma length_concat_const {A : Type} (m : list (list A)) (k : nat) :
  Forall (fun row => length row = k) m -> length (concat m) = (length m * k)%nat.
Proof.
  induction 1 as [|row m Hrow _ IH]; simpl; [reflexivity|].
  rewrite length_app, IH, Hrow. reflexivity.
Qed.

(** The entries the mean is taken over: ten per sample. *)
Lemma numel_loss_terms s x y :
  length (bias s) = n_out -> length y = length x ->
  numel (tf_mul (determ y) (log_prob s x)) = (length x * 10)%nat.
Proof.
  intros Hb Hy. unfold numel.
  rewrite length_concat_const with (k := 10%nat).
  - unfold tf_mul, determ, tf_one_hot.
    rewrite map2_length, length_map, log_prob_rows, length_map, lin_length, Hy.
    now rewrite Nat.min_id.
  - unfold tf_mul. apply Forall_map2. intros d lp Hd Hlp.
    unfold determ, tf_one_hot in Hd. apply in_map_iff in Hd as (l & <- & _).
    rewrite log_prob_rows in Hlp. apply in_map_iff in Hlp as (r & <- & Hr).
    rewrite map2_length. unfold one_hot_row.
    rewrite length_map, length_seq, log_softmax_row_length.
    rewrite (lin_row_length s x r Hb Hr). reflexivity.
Qed.

Lemma rsum_loss_terms (lps : matrix) (y : list Z) :
  Forall (fun row => length row = 10%nat) lps -> labels_in_range y ->
  rsum (concat (tf_mul (tf_one_hot y 10) lps))
  = rsum (map2 (fun lp l => nth (Z.to_nat l) lp 0) lps y).
Proof.
  unfold tf_mul, tf_one_hot.
  intros Hl. revert y. induction Hl as [|lp lps Hlp _ IH]; intros [|l y] Hy;
    try reflexivity.
  inversion Hy as [|? ? Hl0 Hy']; subst.
  cbn [map map2 concat fold_right rsum].
  rewrite rsum_app. fold (rsum (map2 (fun lp0 l0 => nth (Z.to_nat l0) lp0 0) lps y)).
  rewrite <- (IH y Hy'). f_equal.
  apply (dot_one_hot 10 l lp Hlp). simpl. lia.
Qed.

(** ** The objective in float32's range *)

Section Float32Range.

Import Float32.

(** *** The thresholds *)

Lemma pow2_pos (n : nat) : 0 < 2 ^ n.
Proof. apply pow_lt. lra. Qed.

Lemma pow2_ge_1 (n : nat) : 1 <= 2 ^ n.
Proof. apply pow_R1_Rle. lra. Qed.

Lemma smallest_normal_pos : 0 < smallest_normal.
Proof. unfold smallest_normal. apply Rinv_0_lt_compat, pow2_pos. Qed.

Lemma smallest_normal_small : smallest_normal <= / 16.
Proof.
  unfold smallest_normal. apply Rinv_le_contravar; [lra|].
  replace 16 with (2 ^ 4) by (simpl; lra). apply Rle_pow; [lra|lia].
Qed.

Lemma overflow_threshold_big : 2 ^ 127 <= overflow_threshold.
Proof.
  unfold overflow_threshold.
  assert (H : / 2 ^ 24 <= 1).
  { rewrite <- Rinv_1. apply Rinv_le_contravar; [lra|apply pow2_ge_1]. }
  pose proof (pow2_pos 127). nra.
Qed.

Lemma overflow_threshold_large : 1024 <= overflow_threshold.
Proof.
  apply Rle_trans with (2 := overflow_threshold_big).
  replace 1024 with (2 ^ 10) by (simpl; lra). apply Rle_pow; [lra|lia].
Qed.

(** *** Rounding into the range *)

Lemma fit_cases (r : R) :
  (fit r = PInf /\ overflow_threshold <= r) \/
  (fit r = NInf /\ r <= - overflow_threshold) \/
  (fit r = Fin 0 /\ Rabs r < smallest_normal) \/
  (fit r = Fin r /\ smallest_normal <= Rabs r /\ - overflow_threshold < r < overflow_threshold).
Proof.
  unfold fit.
  destruct (Rle_dec overflow_threshold r) as [H1|H1]; [auto|].
  destruct (Rle_dec r (- overflow_threshold)) as [H2|H2]; [auto|].
  destruct (Rlt_dec (Rabs r) smallest_normal) as [H3|H3]; [auto|].
  right; right; right. repeat split; lra.
Qed.

Ltac thresholds :=
  pose proof smallest_normal_pos; pose proof smallest_normal_small;
  pose proof overflow_threshold_large.

(** Closes a goal of linear arithmetic with absolute values of [r]. *)
Ltac by_sign r :=
  thresholds; unfold Rabs in *; destruct (Rcase_abs r); lra.






(** *** The rows of the network *)

Lemma prob_rows32 (s : Session) (x : matrix) :
  prob s x = map (fun row => map (fun e => fdiv e (fsum row)) row) (elin s x).
Proof.
  unfold prob, Z_. rewrite map2_map_r, map2_diag. reflexivity.
Qed.

Lemma fexp_like (v : f32) : exp_like (fexp v).
Proof.
  destruct v as [x| | |]; cbn [fexp exp_like]; auto.
  pose proof (exp_pos x) as Hx.
  destruct (fit_cases (exp x)) as [[E _]|[[E H]|[[E _]|[E [H _]]]]]; rewrite E;
    cbn [exp_like]; auto.
  - thresholds. lra.
  - right. rewrite Rabs_right in H; lra.
Qed.

Lemma exp_like_nonneg (e : R) : exp_like (Fin e) -> 0 <= e.
Proof. cbn [exp_like]. thresholds. lra. Qed.

(** A sum of two such values is exact unless it overflows. *)
Lemma fit_sum_exact (x y z : R) :
  exp_like (Fin x) -> exp_like (Fin y) -> fit (x + y) = Fin z -> z = x + y.
Proof.
  intros Hx Hy H. cbn [exp_like] in Hx, Hy.
  destruct (fit_cases (x + y)) as [[E _]|[[E _]|[[E H1]|[E _]]]]; rewrite E in H;
    try discriminate; injection H as <-; [|reflexivity].
  by_sign (x + y).
Qed.

Lemma fadd_exp_like (a b : f32) : exp_like a -> exp_like b -> exp_like (fadd a b).
Proof.
  destruct a as [x| | |], b as [y| | |]; cbn [fadd exp_like]; auto.
  intros Hx Hy.
  destruct (fit_cases (x + y)) as [[E _]|[[E H]|[[E _]|[E [H _]]]]]; rewrite E;
    cbn [exp_like]; auto.
  - thresholds. lra.
  - right. by_sign (x + y).
Qed.

Lemma fsum_exp_like (row : list f32) : Forall exp_like row -> exp_like (fsum row).
Proof.
  induction 1 as [|v row Hv _ IH]; cbn [fsum fold_right].
  - left. reflexivity.
  - now apply fadd_exp_like.
Qed.

(** When the sum of a row of [elin] is finite, every entry of the row is
    finite and at most the sum. *)
Lemma fsum_members (row : list f32) (z : R) :
  Forall exp_like row -> fsum row = Fin z ->
  Forall (fun v => exists e, v = Fin e /\ 0 <= e <= z) row.
Proof.
  intros H. revert z. induction H as [|v row Hv Hrow IH]; intros z Hz; constructor.
  - cbn [fsum fold_right] in Hz. fold (fsum row) in Hz.
    pose proof (fsum_exp_like row Hrow) as Hs.
    destruct v as [e| | |], (fsum row) as [z'| | |]; cbn [fadd] in Hz; try discriminate.
    pose proof (fit_sum_exact e z' z Hv Hs Hz). apply exp_like_nonneg in Hv, Hs.
    exists e. split; [reflexivity|lra].
  - cbn [fsum fold_right] in Hz. fold (fsum row) in Hz.
    pose proof (fsum_exp_like row Hrow) as Hs.
    destruct v as [e| | |], (fsum row) as [z'| | |] eqn:Ez; cbn [fadd] in Hz; try discriminate.
    pose proof (fit_sum_exact e z' z Hv Hs Hz). apply exp_like_nonneg in Hv, Hs.
    eapply Forall_impl; [|apply (IH z' eq_refl)].
    cbn beta. intros v (e' & -> & He'). exists e'. split; [reflexivity|lra].
Qed.

Lemma fit_probability (r : R) : 0 <= r <= 1 -> probability_or_nan (fit r).
Proof.
  intros Hr.
  destruct (fit_cases r) as [[E H]|[[E H]|[[E _]|[E _]]]]; rewrite E;
    cbn [probability_or_nan]; try lra; thresholds; lra.
Qed.

Lemma fdiv_probability (row : list f32) (v : f32) :
  Forall exp_like row -> In v row -> probability_or_nan (fdiv v (fsum row)).
Proof.
  intros Hrow Hin.
  pose proof (fsum_exp_like row Hrow) as Hs.
  assert (Hv : exp_like v) by (rewrite Forall_forall in Hrow; auto).
  destruct (fsum row) as [z| | |] eqn:Ez.
  - pose proof (fsum_members row z Hrow Ez) as Hm.
    rewrite Forall_forall in Hm. destruct (Hm v Hin) as (e & -> & He).
    cbn [fdiv]. destruct (Req_dec_T z 0) as [Hz|Hz].
    + destruct (Req_dec_T e 0) as [He0|He0]; [exact I|exfalso; lra].
    + apply fit_probability. split.
      * apply Rmult_le_pos; [lra|]. left. apply Rinv_0_lt_compat. lra.
      * apply Rmult_le_reg_r with z; [lra|]. unfold Rdiv.
        rewrite Rmult_assoc, Rinv_l by assumption. lra.
  - destruct v; cbn [fdiv probability_or_nan exp_like] in *; try lra; auto.
  - contradiction.
  - destruct v; exact I.
Qed.

Lemma prob_range (s : Session) (x : matrix) :
  Forall (Forall probability_or_nan) (prob s x).
Proof.
  rewrite prob_rows32. apply Forall_forall. intros prow Hprow.
  apply in_map_iff in Hprow as (row & <- & Hrow).
  assert (Hlike : Forall exp_like row).
  { unfold elin in Hrow. apply in_map_iff in Hrow as (l & <- & _).
    apply Forall_forall. intros v Hv. apply in_map_iff in Hv as (u & <- & _).
    apply fexp_like. }
  apply Forall_forall. intros p Hp. apply in_map_iff in Hp as (v & <- & Hv).
  now apply fdiv_probability.
Qed.

(** X1.  Every entry of [prob] is nan or a number between 0 and 1, whatever the
    weights, the bias and the images. *)
Theorem prob_entries_are_probabilities_or_nan (s : Session) (inp_ : matrix) :
  Forall (Forall probability_or_nan) (Float32.prob s inp_).
Proof. apply prob_range. Qed.

(** *** The terms of the mean *)








Lemma fadd_NaN_l (b : f32) : fadd NaN b = NaN.
Proof. reflexivity. Qed.









(** *** Shapes *)









(** *** The blank image *)



(** *** Sums that skip zeros *)












(** *** Two parameter sets on the blank image *)


















(** *** The claims on the objective *)








End Float32Range.

(** ** The evaluation utility *)

Lemma rows_of_row_length (n k : nat) (d : list R) :
  length d = (n * k)%nat -> Forall (fun row => length row = k) (rows_of n k d).
Proof.
  intros Hd. unfold rows_of. apply Forall_forall. intros row Hrow.
  apply in_map_iff in Hrow as (i & <- & Hi). apply in_seq in Hi.
  rewrite length_firstn, length_skipn, Hd. nia.
Qed.

Lemma rows_of_length (n k : nat) (d : list R) : length (rows_of n k d) = n.
Proof. unfold rows_of. now rewrite length_map, length_seq. Qed.

Lemma np_reshape_rows (a : ndarray) (n : nat) :
  length (data a) = (n * n_in)%nat ->
  np_reshape a [n_in] = OK {| shape := [n; n_in]; data := data a |}.
Proof.
  intros Hd. unfold np_reshape.
  change (size_of [n_in]) with 784%nat. change n_in with 784%nat in Hd.
  rewrite Hd. simpl Nat.eqb at 1. cbv iota.
  rewrite Nat.Div0.mod_mul, Nat.div_mul by discriminate. reflexivity.
Qed.


(** What [evaluate(pred, inp)] computes on held-out data of [n] images. *)
Lemma evaluate_pred omega n test_images test_labels s :
  length (data test_images) = (n * n_in)%nat ->
  evaluate omega test_images test_labels Fetch_pred inp s
  = OK (np_mean (np_equal (pred s (rows_of n n_in (data test_images))) test_labels), s).
Proof.
  intros Hd. unfold evaluate. simpl known_dims. cbv iota.
  rewrite (np_reshape_rows _ n Hd). simpl.
  unfold session_run, fed_inp; simpl.
  assert (H : forallb (row_length_is n_in) (rows_of n n_in (data test_images)) = true).
  { apply forallb_forall. intros row Hrow. unfold row_length_is. apply Nat.eqb_eq.
    pose proof (rows_of_row_length n n_in _ Hd) as HF.
    rewrite Forall_forall in HF. auto. }
  rewrite H. reflexivity.
Qed.

(** C4.  On held-out data of any number of 28 x 28 images and for every
    parameter set, [evaluate(pred, inp)] returns a scalar and the session it
    leaves is the session it was called with. *)
Theorem evaluate_leaves_parameters (omega : R) (n : nat) (test_images : ndarray)
    (test_labels : list Z) (s : Session) :
  held_out_ok n test_images test_labels ->
  exists metric : R,
    evaluate omega test_images test_labels Fetch_pred inp s = OK (metric, s).
Proof.
  intros (_ & Hd & _). eexists. apply (evaluate_pred omega n); assumption.
Qed.

Lemma two_blank_images_ok : held_out_ok 2 two_blank_images [0%Z; 3%Z].
Proof.
  repeat split.
Qed.

Lemma evaluate_leaves_parameters_witness :
  exists metric : R,
    evaluate learning_rate two_blank_images [0%Z; 3%Z] Fetch_pred inp zero_session
    = OK (metric, zero_session).
Proof.
  apply (evaluate_leaves_parameters learning_rate 2 two_blank_images [0%Z; 3%Z] zero_session).
  apply two_blank_images_ok.
Defined.





(** ** The training step: shapes *)

Lemma tf_matmul_shape (cols : nat) (a b : matrix) :
  length (tf_matmul cols a b) = length a /\
  Forall (fun row => length row = cols) (tf_matmul cols a b).
Proof.
  unfold tf_matmul. split; [apply length_map|].
  apply Forall_forall. intros row Hrow. apply in_map_iff in Hrow as (r & <- & _).
  now rewrite length_map, length_seq.
Qed.

Lemma gradients_shape (s : Session) (inp_ : matrix) (labels_ : list Z) :
  length (fst (gradients s inp_ labels_)) = n_in /\
  Forall (fun row => length row = n_out) (fst (gradients s inp_ labels_)) /\
  length (snd (gradients s inp_ labels_)) = n_out.
Proof.
  unfold gradients; cbv zeta; cbn [fst snd].
  destruct (tf_matmul_shape n_out (tf_transpose n_in inp_) (grad_lin s inp_ labels_))
    as [Hl Hr].
  split; [|split].
  - rewrite Hl. unfold tf_transpose. now rewrite length_map, length_seq.
  - exact Hr.
  - unfold tf_reduce_sum_axis0. now rewrite length_map, length_seq.
Qed.

Lemma update_ops_shape (omega : R) (s : Session) (inp_ : matrix) (labels_ : list Z) :
  shape_ok s -> shape_ok (update_ops omega s inp_ labels_).
Proof.
  intros (Hw & Hrows & Hb). unfold update_ops.
  pose proof (gradients_shape s inp_ labels_) as (Gw & Grows & Gb).
  destruct (gradients s inp_ labels_) as [gw gb]; cbn [fst snd] in *.
  unfold shape_ok; cbn [weights bias]. split; [|split].
  - unfold tf_sub, scal_mat. rewrite map2_length, length_map, Hw, Gw. apply Nat.min_id.
  - unfold tf_sub, scal_mat. apply Forall_map2. intros a b Ha Hb'.
    apply in_map_iff in Hb' as (g & <- & Hg).
    rewrite Forall_forall in Hrows, Grows.
    unfold scal_vec. rewrite map2_length, length_map, (Hrows a Ha), (Grows g Hg).
    apply Nat.min_id.
  - unfold scal_vec. rewrite map2_length, length_map, Hb, Gb. apply Nat.min_id.
Qed.

Lemma initializer_shape (random_normal : nat -> nat -> R) :
  shape_ok (global_variables_initializer random_normal).
Proof.
  unfold shape_ok, global_variables_initializer; cbn [weights bias]. split; [|split].
  - now rewrite length_map, length_seq.
  - apply Forall_forall. intros row Hrow. apply in_map_iff in Hrow as (i & <- & _).
    now rewrite length_map, length_seq.
  - apply repeat_length.
Qed.

Lemma session_run_update_ops omega s inp_ labels_ :
  batch_ok inp_ labels_ ->
  session_run omega Fetch_update_ops s (feed_of inp_ labels_)
  = OK (VVars (weights (update_ops omega s inp_ labels_))
              (bias (update_ops omega s inp_ labels_)),
        update_ops omega s inp_ labels_).
Proof.
  intros H. unfold session_run.
  rewrite (fed_inp_ok _ _ H); cbn [bind]. rewrite (fed_labels_ok _ _ H); cbn [bind].
  reflexivity.
Qed.

Lemma session_run_update_ops_inv omega s fd r :
  session_run omega Fetch_update_ops s fd = OK r ->
  exists inp_ labels_, snd r = update_ops omega s inp_ labels_.
Proof.
  unfold session_run. destruct (fed_inp fd) as [x|e]; cbn [bind]; [|discriminate].
  destruct (fed_labels fd (length x)) as [y|e]; cbn [bind]; [|discriminate].
  intros H. exists x, y.
  apply (f_equal (fun res => match res with OK a => snd a | Raise _ => s end)) in H.
  cbv beta iota in H. rewrite <- H. reflexivity.
Qed.

(** C7.  The variables are created with shapes (784, 10) and (10,), and
    every run of [update_ops] that succeeds leaves variables of those
    shapes: no step resizes them. *)
Theorem parameter_shapes_preserved (omega : R) (random_normal : nat -> nat -> R) :
  shape_ok (global_variables_initializer random_normal) /\
  forall (s : Session) (fd : feed_dict) (r : value * Session),
    shape_ok s ->
    session_run omega Fetch_update_ops s fd = OK r ->
    shape_ok (snd r) /\
    length (weights (snd r)) = length (weights s) /\
    map (@length R) (weights (snd r)) = map (@length R) (weights s) /\
    length (bias (snd r)) = length (bias s).
Proof.
  split; [apply initializer_shape|].
  intros s fd r Hs Hrun.
  apply session_run_update_ops_inv in Hrun as (x & y & ->).
  pose proof (update_ops_shape omega s x y Hs) as Hs'.
  split; [exact Hs'|].
  destruct Hs as (Hw & Hrows & Hb), Hs' as (Hw' & Hrows' & Hb').
  split; [congruence|]. split; [|congruence].
  transitivity (repeat n_out n_in).
  - rewrite <- Hw'. clear - Hrows'. induction Hrows'; simpl; congruence.
  - rewrite <- Hw. clear - Hrows. induction Hrows; simpl; congruence.
Qed.

Lemma zero_session_shape : shape_ok zero_session.
Proof.
  unfold shape_ok, zero_session; cbn [weights bias].
  split; [apply repeat_length|]. split; [|apply repeat_length].
  apply Forall_forall. intros row Hrow. apply repeat_spec in Hrow. subst.
  apply repeat_length.
Qed.

Lemma parameter_shapes_preserved_witness :
  shape_ok (snd (VVars (weights (update_ops learning_rate zero_session [blank_image] [3%Z]))
                       (bias (update_ops learning_rate zero_session [blank_image] [3%Z])),
                 update_ops learning_rate zero_session [blank_image] [3%Z])).
Proof.
  apply (proj2 (parameter_shapes_preserved learning_rate (fun _ _ => 0))
           zero_session (feed_of [blank_image] [3%Z])).
  - apply zero_session_shape.
  - apply session_run_update_ops. apply blank_batch_ok.
Defined.

(** ** The training loop *)

Section Loop.

Variable DataSet : Type.
Variable next_batch : DataSet -> nat -> (matrix * list Z) * DataSet.
Variable omega : R.
Variable test_images : ndarray.
Variable test_labels : list Z.
Variable held_out : nat.

Hypothesis Hsource : source_ok next_batch.
Hypothesis Hheld : held_out_ok held_out test_images test_labels.

Let body := loop_body DataSet next_batch omega test_images test_labels.

Lemma loop_body_ok (i : nat) (w : World DataSet) :
  exists w1 : World DataSet,
    body i w = OK w1 /\
    (session w1, train_set w1) = steps next_batch omega 1 (session w) (train_set w) /\
    update_events (trace w1) = update_events (trace w) ++ [Ran_update_ops i].
Proof.
  unfold body, loop_body. cbn [steps].
  pose proof (Hsource (train_set w) 128%nat) as Hb.
  destruct (next_batch (train_set w) 128%nat) as [[x y] ds]. cbn [fst snd] in Hb.
  change {| feed_inp := Some x; feed_labels := Some y |} with (feed_of x y).
  rewrite (session_run_update_ops omega (session w) x y Hb). cbn [bind snd].
  destruct Hheld as (_ & Hd & _).
  destruct (Nat.eqb (i mod 1000) 0).
  - rewrite (evaluate_pred omega held_out test_images test_labels _ Hd). cbn [bind fst snd].
    eexists; split; [reflexivity|]. cbn [session train_set trace]. split; [reflexivity|].
    unfold update_events. rewrite !filter_app. simpl. now rewrite app_nil_r.
  - eexists; split; [reflexivity|]. cbn [session train_set trace]. split; [reflexivity|].
    unfold update_events. rewrite filter_app. reflexivity.
Qed.

Lemma steps_S (n : nat) (s : Session) (ds : DataSet) :
  steps next_batch omega (S n) s ds
  = steps next_batch omega n (fst (steps next_batch omega 1 s ds))
      (snd (steps next_batch omega 1 s ds)).
Proof.
  cbn [steps]. destruct (next_batch ds 128%nat) as [[x y] ds']. reflexivity.
Qed.

Lemma fold_body_ok (n a : nat) (w : World DataSet) :
  exists w' : World DataSet,
    fold_left (fun acc i => bind acc (body i)) (seq a n) (OK w) = OK w' /\
    (session w', train_set w') = steps next_batch omega n (session w) (train_set w) /\
    update_events (trace w') = update_events (trace w) ++ map Ran_update_ops (seq a n).
Proof.
  revert a w. induction n as [|n IH]; intros a w.
  - exists w. cbn [seq fold_left map steps]. rewrite app_nil_r. auto.
  - destruct (loop_body_ok a w) as (w1 & Hbody & Hstep & Htr).
    destruct (IH (S a) w1) as (w' & Hfold & Hsteps & Htr').
    exists w'. cbn [seq fold_left]. cbn [bind]. rewrite Hbody. split; [exact Hfold|].
    split.
    + rewrite Hsteps, steps_S, <- Hstep. reflexivity.
    + rewrite Htr', Htr, <- app_assoc. reflexivity.
Qed.

Lemma training_loop_ok (iterations : nat) (s : Session) (ds : DataSet) :
  exists w' : World DataSet,
    training_loop DataSet next_batch omega test_images test_labels iterations
      (mkWorld s ds []) = OK w' /\
    (session w', train_set w') = steps next_batch omega iterations s ds /\
    update_events (trace w') = map Ran_update_ops (seq 0 iterations).
Proof.
  destruct (fold_body_ok iterations 0 (mkWorld s ds [])) as (w' & H1 & H2 & H3).
  exists w'. unfold training_loop, for_range. auto.
Qed.

End Loop.

(** C3.  Given any iteration count, a source of well-formed batches and
    held-out images, the training loop ends normally; it has then run
    [update_ops] exactly once for each i = 0, ..., iterations - 1, in that
    order, and the variables are those reached by that many steps applied one
    after the other, none skipped and none added. *)
Theorem training_loop_runs_every_step (DataSet : Type)
    (next_batch : DataSet -> nat -> (matrix * list Z) * DataSet)
    (omega : R) (test_images : ndarray) (test_labels : list Z) (held_out : nat)
    (iterations : nat) (s : Session) (ds : DataSet) :
  source_ok next_batch ->
  held_out_ok held_out test_images test_labels ->
  exists w' : World DataSet,
    training_loop DataSet next_batch omega test_images test_labels iterations
      (mkWorld s ds []) = OK w' /\
    (session w', train_set w') = steps next_batch omega iterations s ds /\
    update_events (trace w') = map Ran_update_ops (seq 0 iterations) /\
    length (update_events (trace w')) = iterations.
Proof.
  intros Hsource Hheld.
  destruct (training_loop_ok DataSet next_batch omega test_images test_labels held_out
              Hsource Hheld iterations s ds) as (w' & H1 & H2 & H3).
  exists w'. repeat split; try assumption.
  now rewrite H3, length_map, length_seq.
Qed.

Lemma blank_source_ok : source_ok blank_source.
Proof.
  intros ds size. unfold blank_source; cbn [fst snd]. split.
  - apply Forall_forall. intros row Hrow. apply repeat_spec in Hrow. subst.
    apply repeat_length.
  - now rewrite !repeat_length.
Qed.

Lemma training_loop_runs_every_step_witness :
  exists w' : World unit,
    training_loop unit blank_source learning_rate two_blank_images [0%Z; 3%Z] 3
      (mkWorld zero_session tt []) = OK w' /\
    (session w', train_set w') = steps blank_source learning_rate 3 zero_session tt /\
    update_events (trace w') = map Ran_update_ops (seq 0 3) /\
    length (update_events (trace w')) = 3%nat.
Proof.
  apply (training_loop_runs_every_step unit blank_source learning_rate
           two_blank_images [0%Z; 3%Z] 2 3 zero_session tt).
  - apply blank_source_ok.
  - apply two_blank_images_ok.
Defined.

(** ** Shape mismatches *)

Lemma matmul_shape_mismatch (batch : option nat) (d in_dim out_dim : nat) :
  d <> in_dim ->
  matmul_shape [batch; Some d] [Some in_dim; Some out_dim] = Raise ShapeMismatch.
Proof.
  intros Hd. unfold matmul_shape, dim_compatible.
  destruct (Nat.eqb d in_dim) eqn:E; [apply Nat.eqb_eq in E; contradiction|reflexivity].
Qed.

Lemma notebook_graph_builds :
  build_elementary_network inp [Some n_in; Some n_out] [Some n_out] = OK [None; Some n_out].
Proof. reflexivity. Qed.

Lemma session_run_bad_feed omega f s x y :
  forallb (row_length_is n_in) x = false ->
  session_run omega f s {| feed_inp := Some x; feed_labels := y |} = Raise FeedShape.
Proof.
  intros H. unfold session_run, fed_inp; cbn [feed_inp]. rewrite H. reflexivity.
Qed.

Lemma evaluate_bad_size omega test_images test_labels s :
  (length (data test_images) mod n_in)%nat <> 0%nat ->
  evaluate omega test_images test_labels Fetch_pred inp s = Raise ReshapeError.
Proof.
  intros H. unfold evaluate. simpl known_dims. cbv iota. unfold np_reshape.
  change (size_of [n_in]) with n_in. change (Nat.eqb n_in 0) with false. cbv iota.
  destruct (Nat.eqb (length (data test_images) mod n_in) 0) eqn:E.
  - apply Nat.eqb_eq in E. contradiction.
  - reflexivity.
Qed.

Lemma evaluate_regroups omega test_images test_labels s :
  (length (data test_images) mod n_in)%nat = 0%nat ->
  evaluate omega test_images test_labels Fetch_pred inp s
  = OK (np_mean (np_equal
          (pred s (rows_of (length (data test_images) / n_in) n_in (data test_images)))
          test_labels), s).
Proof.
  intros H. apply evaluate_pred.
  pose proof (Nat.div_mod_eq (length (data test_images)) n_in) as E.
  rewrite H in E. lia.
Qed.

(** C6, the claim as stated fails.  Held-out samples of 392 entries, not
    784: the graph is built without error, [np.reshape] turns the two
    samples into one row of 784 entries, and [evaluate] returns a value. *)
Lemma shape_mismatch_not_raised :
  size_of (tl (shape two_half_images)) <> n_in /\
  build_elementary_network inp [Some n_in; Some n_out] [Some n_out] = OK [None; Some n_out] /\
  np_reshape two_half_images [n_in]
    = OK {| shape := [1; n_in]%nat; data := data two_half_images |} /\
  exists metric : R,
    evaluate learning_rate two_half_images [0%Z; 3%Z] Fetch_pred inp zero_session
    = OK (metric, zero_session).
Proof.
  split; [discriminate|]. split; [reflexivity|]. split.
  - apply (np_reshape_rows two_half_images 1). reflexivity.
  - eexists. apply (evaluate_pred learning_rate 1). reflexivity.
Qed.

(** C6, amended.  A placeholder whose declared sample dimension differs from
    in_dim makes the construction of the forward model fail with
    ShapeMismatch.  Data is checked when the graph is run: [session.run]
    refuses a fed batch with a row that has not 784 entries, and [evaluate]
    reshapes the held-out array to rows of 784 entries, which fails (in
    np.reshape) when the number of entries is not a multiple of 784 and
    otherwise succeeds, whatever the shape of the samples was. *)
Theorem shape_mismatch_amended :
  (forall (batch : option nat) (d in_dim out_dim : nat),
      d <> in_dim ->
      build_elementary_network [batch; Some d] [Some in_dim; Some out_dim] [Some out_dim]
      = Raise ShapeMismatch) /\
  (forall omega f s x y,
      forallb (row_length_is n_in) x = false ->
      session_run omega f s {| feed_inp := Some x; feed_labels := y |} = Raise FeedShape) /\
  (forall omega test_images test_labels s,
      (length (data test_images) mod n_in)%nat <> 0%nat ->
      evaluate omega test_images test_labels Fetch_pred inp s = Raise ReshapeError) /\
  (forall omega test_images test_labels s,
      (length (data test_images) mod n_in)%nat = 0%nat ->
      exists metric : R,
        evaluate omega test_images test_labels Fetch_pred inp s = OK (metric, s)).
Proof.
  split; [|split; [|split]].
  - intros batch d in_dim out_dim Hd. unfold build_elementary_network.
    now rewrite matmul_shape_mismatch.
  - apply session_run_bad_feed.
  - apply evaluate_bad_size.
  - intros. eexists. now apply evaluate_regroups.
Qed.

Lemma shape_mismatch_amended_witness :
  build_elementary_network [None; Some 392%nat] [Some n_in; Some n_out] [Some n_out]
  = Raise ShapeMismatch.
Proof.
  apply (proj1 shape_mismatch_amended None 392%nat n_in n_out). discriminate.
Defined.

(** ** Derivatives of functions of one real variable *)

Lemma dl_const (c x : R) : derivable_pt_lim (fun _ => c) x 0.
Proof. exact (derivable_pt_lim_const c x). Qed.

Lemma dl_id (x : R) : derivable_pt_lim (fun t => t) x 1.
Proof. exact (derivable_pt_lim_id x). Qed.

Lemma dl_plus (f g : R -> R) (x l1 l2 : R) :
  derivable_pt_lim f x l1 -> derivable_pt_lim g x l2 ->
  derivable_pt_lim (fun t => f t + g t) x (l1 + l2).
Proof. exact (derivable_pt_lim_plus f g x l1 l2). Qed.

Lemma dl_minus (f g : R -> R) (x l1 l2 : R) :
  derivable_pt_lim f x l1 -> derivable_pt_lim g x l2 ->
  derivable_pt_lim (fun t => f t - g t) x (l1 - l2).
Proof. exact (derivable_pt_lim_minus f g x l1 l2). Qed.

Lemma dl_opp (f : R -> R) (x l : R) :
  derivable_pt_lim f x l -> derivable_pt_lim (fun t => - f t) x (- l).
Proof. exact (derivable_pt_lim_opp f x l). Qed.

Lemma dl_mult (f g : R -> R) (x l1 l2 : R) :
  derivable_pt_lim f x l1 -> derivable_pt_lim g x l2 ->
  derivable_pt_lim (fun t => f t * g t) x (l1 * g x + f x * l2).
Proof. exact (derivable_pt_lim_mult f g x l1 l2). Qed.

Lemma dl_scal (c : R) (f : R -> R) (x l : R) :
  derivable_pt_lim f x l -> derivable_pt_lim (fun t => c * f t) x (c * l).
Proof. exact (derivable_pt_lim_scal f c x l). Qed.

Lemma dl_exp (f : R -> R) (x l : R) :
  derivable_pt_lim f x l -> derivable_pt_lim (fun t => exp (f t)) x (exp (f x) * l).
Proof.
  intros H. exact (derivable_pt_lim_comp f exp x l (exp (f x)) H (derivable_pt_lim_exp (f x))).
Qed.

Lemma dl_ln (f : R -> R) (x l : R) :
  0 < f x -> derivable_pt_lim f x l ->
  derivable_pt_lim (fun t => ln (f t)) x (/ f x * l).
Proof.
  intros Hpos H.
  exact (derivable_pt_lim_comp f ln x l (/ f x) H (derivable_pt_lim_ln (f x) Hpos)).
Qed.


Lemma dl_eq (f : R -> R) (x l l' : R) :
  l = l' -> derivable_pt_lim f x l -> derivable_pt_lim f x l'.
Proof. intros ->. auto. Qed.

(** The affine map [t |-> a + t * c]. *)
Lemma dl_affine (a c x : R) : derivable_pt_lim (fun t => a + t * c) x c.
Proof.
  apply dl_eq with (0 + (1 * c + x * 0)); [ring|].
  apply (dl_plus (fun _ => a) (fun t => t * c)); [apply dl_const|].
  apply (dl_mult (fun t => t) (fun _ => c)); [apply dl_id|apply dl_const].
Qed.

Lemma dl_rsum_map {A : Type} (F : A -> R -> R) (F' : A -> R) (l : list A) (x : R) :
  (forall a, In a l -> derivable_pt_lim (F a) x (F' a)) ->
  derivable_pt_lim (fun t => rsum (map (fun a => F a t) l)) x (rsum (map F' l)).
Proof.
  induction l as [|a l IH]; intros H; simpl.
  - apply dl_const.
  - apply (dl_plus (F a) (fun t => rsum (map (fun a0 => F a0 t) l))).
    + apply H; simpl; auto.
    + apply IH. intros; apply H; simpl; auto.
Qed.


(** ** One row of scores along a line *)

Lemma dl_rsum_map2 (F : R -> R -> R -> R) (F' : R -> R -> R) (a c : vector) (x : R) :
  (forall ak ck, derivable_pt_lim (F ak ck) x (F' ak ck)) ->
  derivable_pt_lim (fun t => rsum (map2 (fun ak ck => F ak ck t) a c)) x
    (rsum (map2 F' a c)).
Proof.
  intros H. revert c. induction a as [|ak a IH]; intros [|ck c]; simpl;
    try apply dl_const.
  apply (dl_plus (F ak ck) (fun t => rsum (map2 (fun a0 c0 => F a0 c0 t) a c)));
    [apply H|apply IH].
Qed.

Lemma dl_S0 (a c : vector) (x : R) : derivable_pt_lim (S0 a c) x (S1 a c x).
Proof.
  unfold S0, S1.
  apply (dl_rsum_map2 (fun ak ck t => exp (ak + t * ck))
           (fun ak ck => exp (ak + x * ck) * ck)).
  intros ak ck. apply (dl_exp (fun t => ak + t * ck)). apply dl_affine.
Qed.


Lemma S0_pos (a c : vector) (t : R) :
  a <> [] -> length c = length a -> 0 < S0 a c t.
Proof.
  unfold S0. destruct a as [|ak a]; [congruence|]. destruct c as [|ck c]; [discriminate|].
  intros _ _. simpl.
  assert (0 <= rsum (map2 (fun ak0 ck0 => exp (ak0 + t * ck0)) a c)).
  { apply rsum_nonneg, Forall_map2. intros; left; apply exp_pos. }
  pose proof (exp_pos (ak + t * ck)). lra.
Qed.


(** The logarithm of the softmax is the score minus the log of the sum. *)
Lemma log_softmax_row_eq (l : vector) :
  log_softmax_row l = map (fun u => u - ln (rsum (map exp l))) l.
Proof.
  unfold log_softmax_row, softmax_row. rewrite !map_map.
  apply map_ext_in. intros u Hu.
  assert (Hne : l <> []) by (destruct l; [destruct Hu|congruence]).
  pose proof (rsum_exp_pos l Hne).
  unfold Rdiv. rewrite ln_mult; [|apply exp_pos|now apply Rinv_0_lt_compat].
  rewrite ln_exp, ln_Rinv by assumption. ring.
Qed.

Lemma dot_shift (d l : vector) (c : R) :
  length d = length l ->
  dot d (map (fun u => u - c) l) = dot d l - rsum d * c.
Proof.
  unfold dot. revert l. induction d as [|dk d IH]; intros [|u l] H; simpl in *;
    try discriminate; [lra|].
  rewrite IH by congruence. lra.
Qed.

Lemma dot_axpy (d a c : vector) (t : R) :
  length a = length d -> length c = length d ->
  dot d (map2 (fun ak ck => ak + t * ck) a c) = dot d a + t * dot d c.
Proof.
  unfold dot. revert a c. induction d as [|dk d IH]; intros [|ak a] [|ck c] Ha Hc;
    simpl in *; try discriminate; [lra|].
  rewrite IH by congruence. lra.
Qed.

(** The contribution of one sample to the sum in [loss], for scores
    [a + t * c] and one-hot row [d]. *)
Lemma row_term_along_line (d a c : vector) (t : R) :
  length a = length d -> length c = length d ->
  dot d (log_softmax_row (map2 (fun ak ck => ak + t * ck) a c))
  = dot d a + t * dot d c - rsum d * ln (S0 a c t).
Proof.
  intros Ha Hc. rewrite log_softmax_row_eq, dot_shift.
  - rewrite dot_axpy by assumption. rewrite map_map2. reflexivity.
  - rewrite map2_length, Ha, Hc. now rewrite Nat.min_id.
Qed.

(** The row term and its first two derivatives. *)
Lemma dl_row_term (d a c : vector) (x : R) :
  a <> [] -> length c = length a ->
  derivable_pt_lim (fun t => dot d a + t * dot d c - rsum d * ln (S0 a c t)) x
    (row_term' d a c x).
Proof.
  intros Hne Hlen. unfold row_term'.
  pose proof (S0_pos a c x Hne Hlen) as Hpos.
  apply (dl_minus (fun t => dot d a + t * dot d c) (fun t => rsum d * ln (S0 a c t)));
    [apply dl_affine|].
  apply (dl_scal (rsum d) (fun t => ln (S0 a c t))).
  apply dl_eq with (/ S0 a c x * S1 a c x); [unfold Rdiv; ring|].
  apply (dl_ln (S0 a c)); [assumption|apply dl_S0].
Qed.



(** ** Sums over indices *)

Lemma bigsum_ext (n : nat) (f g : nat -> R) :
  (forall i, (i < n)%nat -> f i = g i) -> bigsum n f = bigsum n g.
Proof.
  intros H. unfold bigsum. apply rsum_map_ext. intros i Hi. apply in_seq in Hi.
  apply H. lia.
Qed.

Lemma bigsum_plus (n : nat) (f g : nat -> R) :
  bigsum n (fun i => f i + g i) = bigsum n f + bigsum n g.
Proof. apply rsum_map_plus. Qed.

Lemma bigsum_scal (n : nat) (c : R) (f : nat -> R) :
  bigsum n (fun i => c * f i) = c * bigsum n f.
Proof. apply rsum_map_scal. Qed.

Lemma bigsum_scal_r (n : nat) (c : R) (f : nat -> R) :
  bigsum n (fun i => f i * c) = bigsum n f * c.
Proof.
  rewrite Rmult_comm, <- bigsum_scal. apply bigsum_ext. intros; ring.
Qed.

Lemma bigsum_0 (n : nat) : bigsum n (fun _ => 0) = 0.
Proof. apply rsum_map_const_0. Qed.


Lemma rsum_swap {A B : Type} (f : A -> B -> R) (la : list A) (lb : list B) :
  rsum (map (fun a => rsum (map (fun b => f a b) lb)) la)
  = rsum (map (fun b => rsum (map (fun a => f a b) la)) lb).
Proof.
  induction la as [|a la IH]; simpl.
  - now rewrite rsum_map_const_0.
  - rewrite IH, <- rsum_map_plus. reflexivity.
Qed.

Lemma bigsum_swap (n m : nat) (f : nat -> nat -> R) :
  bigsum n (fun i => bigsum m (fun j => f i j))
  = bigsum m (fun j => bigsum n (fun i => f i j)).
Proof. apply rsum_swap. Qed.

Lemma nth_map2 {A B C : Type} (f : A -> B -> C) (xs : list A) (ys : list B)
    (i : nat) (da : A) (db : B) (dc : C) :
  (i < length xs)%nat -> (i < length ys)%nat ->
  nth i (map2 f xs ys) dc = f (nth i xs da) (nth i ys db).
Proof.
  revert xs ys. induction i as [|i IH]; intros [|x xs] [|y ys] Hx Hy; simpl in *;
    try lia; [reflexivity|].
  apply IH; lia.
Qed.

Lemma nth_map_seq {A : Type} (f : nat -> A) (n k : nat) (d : A) :
  (k < n)%nat -> nth k (map f (seq 0 n)) d = f k.
Proof.
  intros Hk. rewrite nth_indep with (d' := f 0%nat) by (now rewrite length_map, length_seq).
  rewrite map_nth, seq_nth by assumption. reflexivity.
Qed.

Lemma list_tabulate {A : Type} (l : list A) (d : A) :
  l = map (fun i => nth i l d) (seq 0 (length l)).
Proof.
  induction l as [|a l IH]; simpl; [reflexivity|].
  f_equal. rewrite <- seq_shift, map_map. exact IH.
Qed.

Lemma rsum_bigsum (v : vector) : rsum v = bigsum (length v) (fun i => nth i v 0).
Proof. unfold bigsum. now rewrite <- list_tabulate. Qed.

Lemma map2_tabulate {A B C : Type} (f : A -> B -> C) (xs : list A) (ys : list B)
    (da : A) (db : B) (n : nat) :
  length xs = n -> length ys = n ->
  map2 f xs ys = map (fun i => f (nth i xs da) (nth i ys db)) (seq 0 n).
Proof.
  revert xs ys. induction n as [|n IH]; intros [|x xs] [|y ys] Hx Hy; simpl in *;
    try discriminate; [reflexivity|].
  f_equal. rewrite <- seq_shift, map_map. apply IH; congruence.
Qed.

Lemma dot_bigsum (a b : vector) (n : nat) :
  length a = n -> length b = n ->
  dot a b = bigsum n (fun i => nth i a 0 * nth i b 0).
Proof.
  intros Ha Hb. unfold dot, bigsum. now rewrite (map2_tabulate Rmult a b 0 0 n).
Qed.

Lemma nth_column (k n : nat) (m : matrix) : nth n (column k m) 0 = entry m n k.
Proof.
  unfold column, entry.
  destruct (Nat.lt_ge_cases n (length m)) as [Hlt|Hge].
  - rewrite nth_indep with (d' := nth k [] 0) by (now rewrite length_map).
    apply (map_nth (fun row => nth k row 0)).
  - rewrite (nth_overflow (map _ m)) by (now rewrite length_map).
    rewrite (nth_overflow m) by assumption. destruct k; reflexivity.
Qed.

Lemma column_length (k : nat) (m : matrix) : length (column k m) = length m.
Proof. apply length_map. Qed.

Lemma mdot_bigsum (a b : matrix) (n k : nat) :
  length a = n -> length b = n ->
  Forall (fun row => length row = k) a -> Forall (fun row => length row = k) b ->
  mdot a b = bigsum n (fun i => bigsum k (fun j => entry a i j * entry b i j)).
Proof.
  intros Ha Hb Hra Hrb. unfold mdot, bigsum at 1.
  rewrite (map2_tabulate dot a b [] [] n Ha Hb).
  apply rsum_map_ext. intros i Hi. apply in_seq in Hi.
  rewrite Forall_forall in Hra, Hrb.
  apply dot_bigsum; [apply Hra|apply Hrb]; apply nth_In; lia.
Qed.

(** ** The scores are affine in the parameters *)

Lemma column_axpy (k : nat) (t : R) (w v : matrix) :
  length v = length w ->
  Forall (fun row => (k < length row)%nat) w -> Forall (fun row => (k < length row)%nat) v ->
  column k (map2 (map2 (fun a c => a + t * c)) w v)
  = map2 (fun a c => a + t * c) (column k w) (column k v).
Proof.
  intros Hlen Hw Hv. unfold column. rewrite map_map2, map2_map_l, map2_map_r.
  apply map2_ext. intros a b Ha Hb. rewrite Forall_forall in Hw, Hv.
  apply (nth_map2 (fun a0 c0 => a0 + t * c0) a b k 0 0 0); auto.
Qed.

Lemma lin_axpy (t : R) (d s : Session) (x : matrix) :
  shape_ok s -> shape_ok d -> Forall (fun row => length row = n_in) x ->
  lin (axpy t d s) x = map2 (map2 (fun a c => a + t * c)) (lin s x) (lin d x).
Proof.
  intros (Hw & Hwr & Hb) (Hv & Hvr & Hvb) Hx.
  unfold lin, bias_add, tf_matmul. rewrite !map_map, map2_map_l, map2_map_r, map2_diag.
  apply map_ext_in. intros row Hrow. rewrite Forall_forall in Hx. specialize (Hx row Hrow).
  cbn [weights bias axpy].
  rewrite (map2_tabulate Rplus _ (map2 _ (bias s) (bias d)) 0 0 n_out);
    [|now rewrite length_map, length_seq
     |now rewrite map2_length, Hb, Hvb, Nat.min_id].
  rewrite (map2_tabulate (fun a c => a + t * c) (map2 Rplus _ (bias s)) (map2 Rplus _ (bias d))
             0 0 n_out);
    [|now rewrite map2_length, length_map, length_seq, Hb, Nat.min_id
     |now rewrite map2_length, length_map, length_seq, Hvb, Nat.min_id].
  apply map_ext_in. intros k Hk. apply in_seq in Hk.
  rewrite !(nth_map2 Rplus _ _ k 0 0 0)
    by (rewrite ?length_map, ?length_seq, ?Hb, ?Hvb; lia).
  rewrite (nth_map2 (fun a c => a + t * c) (bias s) (bias d) k 0 0 0) by lia.
  rewrite !nth_map_seq by lia.
  rewrite column_axpy.
  - rewrite dot_axpy by (rewrite column_length; congruence). ring.
  - congruence.
  - eapply Forall_impl; [|exact Hwr]. simpl. intros r Hr. unfold n_out in *. lia.
  - eapply Forall_impl; [|exact Hvr]. simpl. intros r Hr. unfold n_out in *. lia.
Qed.

(** ** The loss along a line in parameter space *)

Lemma map2_combine3 {A B C D E : Type} (f : A -> D -> E) (g : B -> C -> D)
    (xs : list A) (ys : list B) (zs : list C) :
  map2 f xs (map2 g ys zs)
  = map (fun tr => f (fst tr) (g (fst (snd tr)) (snd (snd tr)))) (combine xs (combine ys zs)).
Proof.
  revert ys zs. induction xs as [|x xs IH]; intros [|y ys] [|z zs]; simpl; try reflexivity.
  now rewrite IH.
Qed.

Lemma loss_rows (s : Session) (x : matrix) (y : list Z) :
  length (bias s) = n_out -> length y = length x ->
  loss s x y
  = - rsum (map2 (fun dn l => dot dn (log_softmax_row l)) (determ y) (lin s x))
    / INR (length x * 10).
Proof.
  intros Hb Hy. unfold loss, tf_reduce_mean.
  rewrite (numel_loss_terms s x y Hb Hy), rsum_concat.
  unfold tf_mul. rewrite log_prob_rows, map_map2, map2_map_r.
  unfold Rdiv. now rewrite Ropp_mult_distr_l.
Qed.

Lemma axpy_shape (t : R) (d s : Session) :
  shape_ok s -> shape_ok d -> shape_ok (axpy t d s).
Proof.
  intros (Hw & Hwr & Hb) (Hv & Hvr & Hvb). unfold shape_ok, axpy; cbn [weights bias].
  split; [|split].
  - rewrite map2_length, Hw, Hv. apply Nat.min_id.
  - apply Forall_map2. intros a b Ha Hb'. rewrite Forall_forall in Hwr, Hvr.
    rewrite map2_length, (Hwr a Ha), (Hvr b Hb'). apply Nat.min_id.
  - rewrite map2_length, Hb, Hvb. apply Nat.min_id.
Qed.

Lemma determ_row_length (y : list Z) (dn : vector) :
  In dn (determ y) -> length dn = n_out.
Proof.
  unfold determ, tf_one_hot, one_hot_row. intros H.
  apply in_map_iff in H as (l & <- & _). now rewrite length_map, length_seq.
Qed.

Lemma triples_rows (s d : Session) (x : matrix) (y : list Z) tr :
  length (bias s) = n_out -> length (bias d) = n_out ->
  In tr (triples s d x y) ->
  length (fst tr) = n_out /\ length (fst (snd tr)) = n_out /\ length (snd (snd tr)) = n_out /\
  fst (snd tr) <> [].
Proof.
  intros Hb Hvb Hin. destruct tr as [dn [an cn]]. unfold triples in Hin.
  pose proof (in_combine_l _ _ _ _ Hin) as Hd.
  pose proof (in_combine_r _ _ _ _ Hin) as Hac.
  pose proof (in_combine_l _ _ _ _ Hac) as Ha.
  pose proof (in_combine_r _ _ _ _ Hac) as Hc.
  cbn [fst snd].
  pose proof (lin_row_length s x an Hb Ha) as Hla.
  split; [now apply (determ_row_length y)|]. split; [assumption|].
  split; [now apply (lin_row_length d x)|].
  intros ->. discriminate.
Qed.

Lemma loss_along_line (s d : Session) (x : matrix) (y : list Z) (t : R) :
  shape_ok s -> shape_ok d -> batch_ok x y ->
  loss (axpy t d s) x y = line_loss s d x y t.
Proof.
  intros Hs Hd [Hx Hy].
  pose proof (axpy_shape t d s Hs Hd) as (_ & _ & Hb').
  rewrite (loss_rows _ x y Hb' Hy), (lin_axpy t d s x Hs Hd Hx).
  unfold line_loss. do 2 f_equal.
  rewrite map2_combine3. fold (triples s d x y).
  apply rsum_map_ext. intros tr Hin.
  destruct Hs as (_ & _ & Hb), Hd as (_ & _ & Hvb).
  destruct (triples_rows s d x y tr Hb Hvb Hin) as (H1 & H2 & H3 & _).
  unfold on_triple, row_term. apply row_term_along_line; congruence.
Qed.

Lemma dl_line_loss (s d : Session) (x : matrix) (y : list Z) (t : R) :
  length (bias s) = n_out -> length (bias d) = n_out ->
  derivable_pt_lim (line_loss s d x y) t (line_loss' s d x y t).
Proof.
  intros Hb Hvb. unfold line_loss, line_loss', Rdiv.
  apply dl_eq with (/ INR (length x * 10)
                    * - rsum (map (on_triple row_term' t) (triples s d x y))); [ring|].
  apply derivable_pt_lim_ext with
    (f := fun t0 => / INR (length x * 10)
                    * - rsum (map (on_triple row_term t0) (triples s d x y)));
    [intros; ring|].
  apply (dl_scal _ (fun t0 => - rsum (map (on_triple row_term t0) (triples s d x y)))).
  apply (dl_opp (fun t0 => rsum (map (on_triple row_term t0) (triples s d x y)))).
  apply (dl_rsum_map (fun tr t0 => on_triple row_term t0 tr) (on_triple row_term' t)).
  intros tr Hin. destruct (triples_rows s d x y tr Hb Hvb Hin) as (H1 & H2 & H3 & Hne).
  unfold on_triple. apply dl_row_term; congruence.
Qed.


(** ** The backward chain in closed form *)

Lemma grad_lin_rows (s : Session) (x : matrix) (y : list Z) :
  grad_lin s x y
  = map2 (backprop_row (- (1 / INR (numel (tf_mul (determ y) (log_prob s x))))))
      (determ y) (lin s x).
Proof.
  unfold grad_lin. cbv zeta.
  generalize (- (1 / INR (numel (tf_mul (determ y) (log_prob s x))))) as c.
  unfold log_prob, prob, Z_, elin.
  generalize (determ y) as D, (lin s x) as L. intros D L c.
  unfold tf_mul, tf_log, tf_exp, div_bcast, add_bcast, tf_reduce_sum_axis1.
  revert L. induction D as [|dn D IH]; intros [|l L]; try reflexivity.
  cbn [map map2 hd]. rewrite IH. reflexivity.
Qed.

Lemma map2_fuse_r {A B C D E : Type} (f : C -> D -> E) (g : A -> B -> C) (h : B -> D)
    (xs : list A) (ys : list B) :
  map2 f (map2 g xs ys) (map h ys) = map2 (fun x y => f (g x y) (h y)) xs ys.
Proof.
  revert ys. induction xs as [|x xs IH]; intros [|y ys]; simpl; try reflexivity.
  now rewrite IH.
Qed.

Lemma map2_fuse_l {A B C E : Type} (f : C -> A -> E) (g : A -> B -> C)
    (xs : list A) (ys : list B) :
  map2 f (map2 g xs ys) xs = map2 (fun x y => f (g x y) x) xs ys.
Proof.
  revert ys. induction xs as [|x xs IH]; intros [|y ys]; simpl; try reflexivity.
  now rewrite IH.
Qed.

Lemma rsum_map2_scal_l (c : R) (d l : vector) :
  length d = length l -> rsum (map2 (fun dk _ => c * dk) d l) = c * rsum d.
Proof.
  revert l. induction d as [|dk d IH]; intros [|lk l] H; simpl in *; try discriminate;
    [lra|].
  rewrite IH by congruence. lra.
Qed.

Lemma backprop_row_closed (c : R) (dn l : vector) :
  length dn = length l ->
  backprop_row c dn l
  = map2 (fun dk pk => c * dk - c * rsum dn * pk) dn (softmax_row l).
Proof.
  intros Hlen. unfold backprop_row, softmax_row. cbv zeta.
  destruct l as [|l0 l'] eqn:El.
  { destruct dn; [reflexivity|discriminate]. }
  rewrite <- El in *. assert (Hne : l <> []) by (rewrite El; discriminate). clear El l0 l'.
  pose proof (rsum_exp_pos l Hne) as Hz.
  set (z := rsum (map exp l)) in *.
  rewrite !map_map.
  assert (Hgp : map2 Rmult
                  (map2 Rmult
                     (map (fun _ : R => c)
                        (map2 Rmult dn (map (fun x0 => ln (exp x0 / z)) l))) dn)
                  (map (fun x0 => / (exp x0 / z)) l)
                = map2 (fun dk lk => c * dk * / (exp lk / z)) dn l).
  { rewrite (map2_map_r Rmult (fun x0 => ln (exp x0 / z))), map_map2, map2_fuse_l.
    now rewrite map2_fuse_r. }
  rewrite Hgp.
  rewrite (map2_fuse_r Rmult (fun dk lk => c * dk * / (exp lk / z))
             (fun x => - exp x / z / z)).
  rewrite map_map2.
  rewrite (map2_fuse_r Rmult _ exp), (map2_map_r _ (fun x => exp x / z)).
  assert (Hgz : rsum (map2 (fun x y => c * x * / (exp y / z) * (- exp y / z / z)) dn l)
                = - (c / z) * rsum dn).
  { rewrite <- (rsum_map2_scal_l (- (c / z)) dn l Hlen). f_equal.
    apply map2_ext. intros dk lk _ _. pose proof (exp_pos lk). field. lra. }
  rewrite Hgz. apply map2_ext. intros dk lk _ _. pose proof (exp_pos lk). field. lra.
Qed.

Lemma dot_lincomb (alpha beta : R) (d p c : vector) :
  length d = length c -> length p = length c ->
  dot (map2 (fun dk pk => alpha * dk + beta * pk) d p) c
  = alpha * dot d c + beta * dot p c.
Proof.
  unfold dot. revert d p. induction c as [|ck c IH]; intros [|dk d] [|pk p] Hd Hp;
    simpl in *; try discriminate; [lra|].
  rewrite IH by congruence. lra.
Qed.

Lemma dot_backprop_row (c : R) (dn l cn : vector) :
  length dn = length cn -> length l = length cn ->
  dot (backprop_row c dn l) cn = c * (dot dn cn - rsum dn * dot (softmax_row l) cn).
Proof.
  intros Hd Hl. rewrite backprop_row_closed by congruence.
  rewrite (map2_ext _ (fun dk pk => c * dk + (- (c * rsum dn)) * pk))
    by (intros; ring).
  rewrite dot_lincomb; [ring|assumption|now rewrite softmax_row_length].
Qed.

Lemma S0_at_0 (a c : vector) : length c = length a -> S0 a c 0 = rsum (map exp a).
Proof.
  unfold S0. revert c. induction a as [|ak a IH]; intros [|ck c] H; simpl in *;
    try discriminate; [reflexivity|].
  rewrite IH by congruence. now rewrite Rmult_0_l, Rplus_0_r.
Qed.

Lemma S1_at_0 (a c : vector) : S1 a c 0 = dot (map exp a) c.
Proof.
  unfold S1, dot. rewrite map2_map_l. f_equal. apply map2_ext. intros ak ck _ _.
  now rewrite Rmult_0_l, Rplus_0_r.
Qed.

Lemma dot_softmax_row (a c : vector) :
  dot (softmax_row a) c = dot (map exp a) c / rsum (map exp a).
Proof.
  unfold softmax_row, dot. generalize (rsum (map exp a)) as z. intros z.
  rewrite map2_map_l. generalize (map exp a) as e. intros e.
  revert c. induction e as [|ek e IH]; intros [|ck c]; simpl;
    try (unfold Rdiv; rewrite Rmult_0_l; reflexivity).
  rewrite IH. unfold Rdiv. ring.
Qed.

Lemma row_term'_at_0 (d a c : vector) :
  length c = length a ->
  row_term' d a c 0 = dot d c - rsum d * dot (softmax_row a) c.
Proof.
  intros H. unfold row_term'. now rewrite (S0_at_0 a c H), S1_at_0, dot_softmax_row.
Qed.

Lemma map2_combine3_l {A B C D E : Type} (f : D -> C -> E) (g : A -> B -> D)
    (xs : list A) (ys : list B) (zs : list C) :
  map2 f (map2 g xs ys) zs
  = map (fun tr => f (g (fst tr) (fst (snd tr))) (snd (snd tr))) (combine xs (combine ys zs)).
Proof.
  revert ys zs. induction xs as [|x xs IH]; intros [|y ys] [|z zs]; simpl; try reflexivity.
  now rewrite IH.
Qed.

(** The slope of the loss along a line, at its start, is the inner product
    of [grad_lin] with the scores of the direction. *)
Lemma line_loss'_at_0 (s d : Session) (x : matrix) (y : list Z) :
  length (bias s) = n_out -> length (bias d) = n_out -> length y = length x ->
  line_loss' s d x y 0 = mdot (grad_lin s x y) (lin d x).
Proof.
  intros Hb Hvb Hy. unfold line_loss', mdot.
  rewrite grad_lin_rows, (numel_loss_terms s x y Hb Hy), map2_combine3_l.
  fold (triples s d x y).
  replace (- rsum (map (on_triple row_term' 0) (triples s d x y)) / INR (length x * 10))
    with (- (1 / INR (length x * 10)) * rsum (map (on_triple row_term' 0) (triples s d x y)))
    by (unfold Rdiv; ring).
  rewrite <- rsum_map_scal.
  apply rsum_map_ext. intros tr Hin.
  destruct (triples_rows s d x y tr Hb Hvb Hin) as (H1 & H2 & H3 & _).
  unfold on_triple. rewrite dot_backprop_row by congruence.
  rewrite row_term'_at_0 by congruence. ring.
Qed.

(** ** From the gradient of the scores to the gradient of the parameters *)

Lemma nth_map_in {A B : Type} (f : A -> B) (l : list A) (n : nat) (da : A) (db : B) :
  (n < length l)%nat -> nth n (map f l) db = f (nth n l da).
Proof.
  intros H. rewrite nth_indep with (d' := f da) by (now rewrite length_map).
  apply map_nth.
Qed.

Lemma entry_lin (d : Session) (x : matrix) (n k : nat) :
  length (bias d) = n_out -> (n < length x)%nat -> (k < n_out)%nat ->
  entry (lin d x) n k = dot (nth n x []) (column k (weights d)) + nth k (bias d) 0.
Proof.
  intros Hb Hn Hk. unfold entry, lin, bias_add, tf_matmul. rewrite map_map.
  rewrite (nth_map_in _ x n [] []) by assumption.
  rewrite (nth_map2 Rplus _ _ k 0 0 0) by (rewrite ?length_map, ?length_seq, ?Hb; lia).
  now rewrite nth_map_seq by assumption.
Qed.

Lemma entry_tf_matmul (cols : nat) (a b : matrix) (i k : nat) :
  (i < length a)%nat -> (k < cols)%nat ->
  entry (tf_matmul cols a b) i k = dot (nth i a []) (column k b).
Proof.
  intros Hi Hk. unfold entry, tf_matmul.
  rewrite (nth_map_in _ a i [] []) by assumption.
  now rewrite nth_map_seq by assumption.
Qed.

Lemma dot_columns (a b : matrix) (i k n : nat) :
  length a = n -> length b = n ->
  dot (column i a) (column k b) = bigsum n (fun j => entry a j i * entry b j k).
Proof.
  intros Ha Hb. rewrite (dot_bigsum _ _ n) by (now rewrite column_length).
  apply bigsum_ext. intros j _. now rewrite !nth_column.
Qed.

Lemma dot_row_column (row : vector) (b : matrix) (k n : nat) :
  length row = n -> length b = n ->
  dot row (column k b) = bigsum n (fun j => nth j row 0 * entry b j k).
Proof.
  intros Ha Hb. rewrite (dot_bigsum _ _ n) by (now rewrite ?column_length).
  apply bigsum_ext. intros j _. now rewrite nth_column.
Qed.

Lemma lin_rows_ok (d : Session) (x : matrix) :
  length (bias d) = n_out -> Forall (fun row => length row = n_out) (lin d x).
Proof.
  intros Hb. apply Forall_forall. intros row Hrow. now apply (lin_row_length d x).
Qed.

(** The inner product of [g] with the scores of a direction is the inner
    product of the direction with [(transpose x) g] and the column sums of
    [g]. *)
Lemma adjoint_identity (g x : matrix) (d : Session) :
  shape_ok d -> Forall (fun row => length row = n_in) x ->
  length g = length x -> Forall (fun row => length row = n_out) g ->
  mdot g (lin d x)
  = mdot (tf_matmul n_out (tf_transpose n_in x) g) (weights d)
    + dot (tf_reduce_sum_axis0 n_out g) (bias d).
Proof.
  intros (Hv & Hvr & Hvb) Hx Hg Hgr.
  set (N := length x) in *.
  destruct (tf_matmul_shape n_out (tf_transpose n_in x) g) as [HgWl HgWr].
  assert (HgWl' : length (tf_matmul n_out (tf_transpose n_in x) g) = n_in).
  { rewrite HgWl. unfold tf_transpose. now rewrite length_map, length_seq. }
  rewrite (mdot_bigsum g (lin d x) N n_out Hg (lin_length d x) Hgr (lin_rows_ok d x Hvb)).
  rewrite (mdot_bigsum _ (weights d) n_in n_out HgWl' Hv HgWr Hvr).
  rewrite (dot_bigsum _ (bias d) n_out)
    by (unfold tf_reduce_sum_axis0; rewrite ?length_map, ?length_seq; auto).
  (* left-hand side, entry by entry *)
  rewrite (bigsum_ext N _
             (fun n => bigsum n_out (fun k =>
                bigsum n_in (fun i => entry g n k * entry x n i * entry (weights d) i k))
              + bigsum n_out (fun k => entry g n k * nth k (bias d) 0))).
  2:{ intros n Hn. rewrite <- bigsum_plus. apply bigsum_ext. intros k Hk.
      rewrite (entry_lin d x n k Hvb Hn Hk).
      rewrite (dot_row_column _ (weights d) k n_in);
        [|rewrite Forall_forall in Hx; apply Hx, nth_In; exact Hn|exact Hv].
      rewrite Rmult_plus_distr_l, <- bigsum_scal. f_equal.
      apply bigsum_ext. intros i _. unfold entry. ring. }
  rewrite bigsum_plus. f_equal.
  - (* the weights *)
    rewrite (bigsum_ext n_in _
               (fun i => bigsum n_out (fun k =>
                  bigsum N (fun n => entry g n k * entry x n i * entry (weights d) i k)))).
    2:{ intros i Hi. apply bigsum_ext. intros k Hk.
        rewrite entry_tf_matmul
          by (unfold tf_transpose; rewrite ?length_map, ?length_seq; assumption).
        unfold tf_transpose. rewrite nth_map_seq by assumption.
        rewrite (dot_columns x g i k N eq_refl Hg), <- bigsum_scal_r.
        apply bigsum_ext. intros n _. ring. }
    rewrite (bigsum_ext N _
               (fun n => bigsum n_in (fun i => bigsum n_out (fun k =>
                  entry g n k * entry x n i * entry (weights d) i k))))
      by (intros; apply bigsum_swap).
    rewrite bigsum_swap. apply bigsum_ext. intros i _. apply bigsum_swap.
  - (* the bias *)
    rewrite bigsum_swap. apply bigsum_ext. intros k Hk.
    unfold tf_reduce_sum_axis0. rewrite nth_map_seq by assumption.
    rewrite rsum_bigsum, column_length, Hg, <- bigsum_scal_r.
    apply bigsum_ext. intros n _. now rewrite nth_column.
Qed.

Lemma grad_lin_shape (s : Session) (x : matrix) (y : list Z) :
  length (bias s) = n_out -> length y = length x ->
  length (grad_lin s x y) = length x /\
  Forall (fun row => length row = n_out) (grad_lin s x y).
Proof.
  intros Hb Hy. rewrite grad_lin_rows. split.
  - unfold determ, tf_one_hot.
    rewrite map2_length, length_map, lin_length, Hy. apply Nat.min_id.
  - apply Forall_map2. intros dn l Hd Hl.
    pose proof (determ_row_length y dn Hd) as H1.
    pose proof (lin_row_length s x l Hb Hl) as H2.
    rewrite backprop_row_closed by congruence.
    rewrite map2_length, softmax_row_length, H1, H2. apply Nat.min_id.
Qed.



(** The loss along any line through [s] has, at [s], the slope given by the
    inner product of [gradients] with the direction of the line. *)
Lemma loss_slope (s d : Session) (x : matrix) (y : list Z) :
  shape_ok s -> shape_ok d -> batch_ok x y ->
  derivable_pt_lim (fun t => loss (axpy t d s) x y) 0 (sdot (grad_session s x y) d).
Proof.
  intros Hs Hd Hxy.
  apply derivable_pt_lim_ext with (f := line_loss s d x y);
    [intros t; symmetry; now apply loss_along_line|].
  destruct Hs as (_ & _ & Hb). pose proof Hd as (_ & _ & Hvb). destruct Hxy as [Hx Hy].
  apply dl_eq with (line_loss' s d x y 0); [|now apply dl_line_loss].
  rewrite (line_loss'_at_0 s d x y Hb Hvb Hy).
  destruct (grad_lin_shape s x y Hb Hy) as [Hgl Hgr].
  rewrite (adjoint_identity _ x d Hd Hx Hgl Hgr). reflexivity.
Qed.

(** ** One step of gradient descent does not increase the loss *)
























(** ** The optimizer step *)

Lemma entry_map2 (f : R -> R -> R) (a b : matrix) (i k : nat) :
  (i < length a)%nat -> (i < length b)%nat ->
  (k < length (nth i a []))%nat -> (k < length (nth i b []))%nat ->
  entry (map2 (map2 f) a b) i k = f (entry a i k) (entry b i k).
Proof.
  intros Ha Hb Hka Hkb. unfold entry.
  rewrite (nth_map2 (map2 f) a b i [] [] []) by assumption.
  now apply nth_map2.
Qed.

Lemma update_ops_entries (omega : R) (s : Session) (x : matrix) (y : list Z) :
  shape_ok s ->
  (forall i k, (i < n_in)%nat -> (k < n_out)%nat ->
     entry (weights (update_ops omega s x y)) i k
     = entry (weights s) i k - omega * entry (fst (gradients s x y)) i k) /\
  (forall k, (k < n_out)%nat ->
     nth k (bias (update_ops omega s x y)) 0
     = nth k (bias s) 0 - omega * nth k (snd (gradients s x y)) 0).
Proof.
  intros (Hw & Hwr & Hb).
  pose proof (gradients_shape s x y) as (Gw & Gr & Gb).
  unfold update_ops. destruct (gradients s x y) as [gw gb]; cbn [fst snd weights bias] in *.
  rewrite Forall_forall in Hwr, Gr. split.
  - intros i k Hi Hk. unfold tf_sub, scal_mat.
    rewrite entry_map2.
    + f_equal. unfold entry, scal_vec.
      rewrite (nth_map_in _ gw i [] []) by lia.
      rewrite (nth_map_in _ _ k 0 0); [reflexivity|].
      rewrite (Gr (nth i gw [])); [assumption|apply nth_In; lia].
    + lia.
    + rewrite length_map. lia.
    + rewrite (Hwr (nth i (weights s) [])); [assumption|apply nth_In; lia].
    + rewrite (nth_map_in _ gw i [] []) by lia. unfold scal_vec. rewrite length_map.
      rewrite (Gr (nth i gw [])); [assumption|apply nth_In; lia].
  - intros k Hk. unfold scal_vec.
    rewrite (nth_map2 Rminus (bias s) _ k 0 0 0) by (rewrite ?length_map; lia).
    f_equal. now rewrite (nth_map_in _ gb k 0 0) by lia.
Qed.

(** C2.  For every step size, parameter set and batch, running [update_ops]
    assigns to every entry of [weights] and [bias] its old value minus the
    step size times the matching entry of [gradients]; and [gradients] is the
    gradient of the loss at the current parameters and batch: along every line
    through the parameters, the slope of the loss is the inner product of
    [gradients] with the direction of the line. *)
Theorem gradient_descent_step (omega : R) (s : Session) (inp_ : matrix) (labels_ : list Z) :
  shape_ok s -> batch_ok inp_ labels_ ->
  let g := gradients s inp_ labels_ in
  let s' := update_ops omega s inp_ labels_ in
  session_run omega Fetch_update_ops s (feed_of inp_ labels_)
    = OK (VVars (weights s') (bias s'), s') /\
  (forall i k, (i < n_in)%nat -> (k < n_out)%nat ->
     entry (weights s') i k = entry (weights s) i k - omega * entry (fst g) i k) /\
  (forall k, (k < n_out)%nat ->
     nth k (bias s') 0 = nth k (bias s) 0 - omega * nth k (snd g) 0) /\
  (forall d : Session, shape_ok d ->
     derivable_pt_lim (fun t => loss (axpy t d s) inp_ labels_) 0
       (mdot (fst g) (weights d) + dot (snd g) (bias d))).
Proof.
  intros Hs Hxy g s'.
  split; [now apply session_run_update_ops|].
  destruct (update_ops_entries omega s inp_ labels_ Hs) as [Hw Hb].
  split; [exact Hw|]. split; [exact Hb|].
  intros d Hd. exact (loss_slope s d inp_ labels_ Hs Hd Hxy).
Qed.

Lemma gradient_descent_step_witness :
  let g := gradients zero_session [blank_image] [3%Z] in
  let s' := update_ops learning_rate zero_session [blank_image] [3%Z] in
  session_run learning_rate Fetch_update_ops zero_session (feed_of [blank_image] [3%Z])
    = OK (VVars (weights s') (bias s'), s') /\
  (forall i k, (i < n_in)%nat -> (k < n_out)%nat ->
     entry (weights s') i k = entry (weights zero_session) i k - learning_rate * entry (fst g) i k) /\
  (forall k, (k < n_out)%nat ->
     nth k (bias s') 0 = nth k (bias zero_session) 0 - learning_rate * nth k (snd g) 0) /\
  (forall d : Session, shape_ok d ->
     derivable_pt_lim (fun t => loss (axpy t d zero_session) [blank_image] [3%Z]) 0
       (mdot (fst g) (weights d) + dot (snd g) (bias d))).
Proof.
  apply (gradient_descent_step learning_rate zero_session [blank_image] [3%Z]).
  - apply zero_session_shape.
  - apply blank_batch_ok.
Defined.



(** * Further properties of the code *)

(** ** Probabilities and predictions *)

Lemma rsum_softmax_row (l : vector) : l <> [] -> rsum (softmax_row l) = 1.
Proof.
  intros Hne. pose proof (rsum_exp_pos l Hne) as Hz. unfold softmax_row.
  rewrite (rsum_map_ext _ (fun e => / rsum (map exp l) * e))
    by (intros; unfold Rdiv; ring).
  rewrite rsum_map_scal, map_id. apply Rinv_l. lra.
Qed.










(** ** Lists of zeros *)


Lemma rsum_repeat_0 (n : nat) : rsum (repeat 0 n) = 0.
Proof. induction n; simpl; lra. Qed.


Lemma nth_repeat_0 (n k : nat) : nth k (repeat 0 n) 0 = 0.
Proof.
  destruct (Nat.lt_ge_cases k n).
  - now apply nth_repeat_lt.
  - apply nth_overflow. now rewrite repeat_length.
Qed.

(** ** What the training loop prints, and how runs compose *)

Section LoopOutput.

Variable DataSet : Type.
Variable next_batch : DataSet -> nat -> (matrix * list Z) * DataSet.
Variable omega : R.
Variable test_images : ndarray.
Variable test_labels : list Z.
Variable held_out : nat.

Hypothesis Hsource : source_ok next_batch.
Hypothesis Hheld : held_out_ok held_out test_images test_labels.

Let body := loop_body DataSet next_batch omega test_images test_labels.
Let acc := accuracy test_images test_labels held_out.

Lemma loop_body_printed (i : nat) (w : World DataSet) :
  exists w1 : World DataSet,
    body i w = OK w1 /\
    (session w1, train_set w1) = steps next_batch omega 1 (session w) (train_set w) /\
    printed_values (trace w1)
    = printed_values (trace w)
      ++ (if prints_at i then [(i, acc (session w1) * 100)] else []).
Proof.
  unfold body, loop_body, prints_at. cbn [steps].
  pose proof (Hsource (train_set w) 128%nat) as Hb.
  destruct (next_batch (train_set w) 128%nat) as [[x y] ds]. cbn [fst snd] in Hb.
  change {| feed_inp := Some x; feed_labels := Some y |} with (feed_of x y).
  rewrite (session_run_update_ops omega (session w) x y Hb). cbn [bind snd].
  destruct Hheld as (_ & Hd & _).
  destruct (Nat.eqb (i mod 1000) 0).
  - rewrite (evaluate_pred omega held_out test_images test_labels _ Hd). cbn [bind fst snd].
    eexists; split; [reflexivity|]. cbn [session train_set trace]. split; [reflexivity|].
    unfold printed_values. rewrite !flat_map_app. cbn [flat_map app].
    now rewrite !app_nil_r.
  - eexists; split; [reflexivity|]. cbn [session train_set trace]. split; [reflexivity|].
    unfold printed_values. rewrite flat_map_app. cbn [flat_map app].
    now rewrite !app_nil_r.
Qed.

Lemma steps_1_S (n : nat) (s : Session) (ds : DataSet) :
  steps next_batch omega (S n) s ds
  = steps next_batch omega n (fst (steps next_batch omega 1 s ds))
      (snd (steps next_batch omega 1 s ds)).
Proof.
  cbn [steps]. destruct (next_batch ds 128%nat) as [[x y] ds']. reflexivity.
Qed.

Lemma fold_body_printed (n a : nat) (w : World DataSet) :
  exists w' : World DataSet,
    fold_left (fun r i => bind r (body i)) (seq a n) (OK w) = OK w' /\
    (session w', train_set w') = steps next_batch omega n (session w) (train_set w) /\
    printed_values (trace w')
    = printed_values (trace w)
      ++ map (fun i => (i, acc (fst (steps next_batch omega (S (i - a))
                                       (session w) (train_set w))) * 100))
             (filter prints_at (seq a n)).
Proof.
  revert a w. induction n as [|n IH]; intros a w.
  - exists w. cbn [seq fold_left filter map steps]. rewrite app_nil_r. auto.
  - destruct (loop_body_printed a w) as (w1 & Hbody & Hstep & Htr).
    destruct (IH (S a) w1) as (w' & Hfold & Hsteps & Htr').
    exists w'. cbn [seq fold_left]. cbn [bind]. rewrite Hbody. split; [exact Hfold|].
    assert (Hs1 : session w1 = fst (steps next_batch omega 1 (session w) (train_set w)))
      by (now rewrite <- Hstep).
    assert (Hd1 : train_set w1 = snd (steps next_batch omega 1 (session w) (train_set w)))
      by (now rewrite <- Hstep).
    split.
    + rewrite Hsteps, steps_1_S, Hs1, Hd1. reflexivity.
    + rewrite Htr', Htr, <- app_assoc. f_equal. cbn [filter].
      assert (Htail : map (fun i => (i, acc (fst (steps next_batch omega (S (i - S a))
                                          (session w1) (train_set w1))) * 100))
                          (filter prints_at (seq (S a) n))
                      = map (fun i => (i, acc (fst (steps next_batch omega (S (i - a))
                                          (session w) (train_set w))) * 100))
                            (filter prints_at (seq (S a) n))).
      { apply map_ext_in. intros i Hi. apply filter_In in Hi as [Hi _].
        apply in_seq in Hi. f_equal. f_equal. f_equal.
        replace (i - a)%nat with (S (i - S a)) by lia.
        rewrite (steps_1_S (S (i - S a))), Hs1, Hd1. reflexivity. }
      rewrite Htail. destruct (prints_at a); cbn [map app]; [|reflexivity].
      rewrite Nat.sub_diag, Hs1. reflexivity.
Qed.

Lemma steps_add (n1 n2 : nat) (s : Session) (ds : DataSet) :
  steps next_batch omega (n1 + n2) s ds
  = steps next_batch omega n2 (fst (steps next_batch omega n1 s ds))
      (snd (steps next_batch omega n1 s ds)).
Proof.
  revert s ds. induction n1 as [|n1 IH]; intros s ds; [reflexivity|].
  cbn [plus steps]. destruct (next_batch ds 128%nat) as [[x y] ds']. apply IH.
Qed.

Lemma fold_body_session (n a : nat) (w : World DataSet) :
  exists w' : World DataSet,
    fold_left (fun r i => bind r (body i)) (seq a n) (OK w) = OK w' /\
    (session w', train_set w') = steps next_batch omega n (session w) (train_set w).
Proof.
  destruct (fold_body_printed n a w) as (w' & H1 & H2 & _). eauto.
Qed.

Lemma loop_body_actions (i : nat) (w : World DataSet) :
  exists w1 : World DataSet,
    body i w = OK w1 /\
    map action_of (trace w1)
    = map action_of (trace w) ++ Step i :: (if prints_at i then [Print i] else []).
Proof.
  unfold body, loop_body, prints_at.
  pose proof (Hsource (train_set w) 128%nat) as Hb.
  destruct (next_batch (train_set w) 128%nat) as [[x y] ds]. cbn [fst snd] in Hb.
  change {| feed_inp := Some x; feed_labels := Some y |} with (feed_of x y).
  rewrite (session_run_update_ops omega (session w) x y Hb). cbn [bind snd].
  destruct Hheld as (_ & Hd & _).
  destruct (Nat.eqb (i mod 1000) 0).
  - rewrite (evaluate_pred omega held_out test_images test_labels _ Hd). cbn [bind fst snd].
    eexists; split; [reflexivity|]. cbn [trace].
    rewrite !map_app, <- app_assoc. reflexivity.
  - eexists; split; [reflexivity|]. cbn [trace].
    rewrite map_app. reflexivity.
Qed.

Lemma fold_body_actions (n a : nat) (w : World DataSet) :
  exists w' : World DataSet,
    fold_left (fun r i => bind r (body i)) (seq a n) (OK w) = OK w' /\
    map action_of (trace w')
    = map action_of (trace w)
      ++ flat_map (fun i => Step i :: (if prints_at i then [Print i] else [])) (seq a n).
Proof.
  revert a w. induction n as [|n IH]; intros a w.
  - exists w. cbn [seq fold_left flat_map]. rewrite app_nil_r. auto.
  - destruct (loop_body_actions a w) as (w1 & Hbody & Htr).
    destruct (IH (S a) w1) as (w' & Hfold & Htr').
    exists w'. cbn [seq fold_left]. cbn [bind]. rewrite Hbody. split; [exact Hfold|].
    rewrite Htr', Htr, <- app_assoc. reflexivity.
Qed.

End LoopOutput.

Lemma count_print_actions (a n : nat) :
  filter is_print (flat_map (fun i => Step i :: (if prints_at i then [Print i] else []))
                            (seq a n))
  = map Print (filter prints_at (seq a n)).
Proof.
  revert a. induction n as [|n IH]; intros a; [reflexivity|].
  cbn [seq flat_map filter app is_print]. rewrite filter_app, IH.
  destruct (prints_at a); reflexivity.
Qed.

Lemma count_prints (n : nat) :
  length (filter prints_at (seq 0 n)) = ((n + 999) / 1000)%nat.
Proof.
  induction n as [|n IH]; [reflexivity|].
  rewrite seq_S, filter_app, length_app, IH. cbn [plus filter]. unfold prints_at.
  pose proof (Nat.div_mod_eq n 1000) as E.
  pose proof (Nat.mod_upper_bound n 1000 ltac:(discriminate)) as Hr.
  destruct (Nat.eqb (n mod 1000) 0) eqn:Em.
  - apply Nat.eqb_eq in Em. cbn [length].
    assert (H1 : ((n + 999) / 1000 = n / 1000)%nat).
    { symmetry. apply (Nat.div_unique _ 1000 _ 999); lia. }
    assert (H2 : (S (n + 999) / 1000 = S (n / 1000))%nat).
    { symmetry. apply (Nat.div_unique _ 1000 _ 0); lia. }
    lia.
  - apply Nat.eqb_neq in Em. cbn [length].
    assert (H1 : ((n + 999) / 1000 = S (n / 1000))%nat).
    { symmetry. apply (Nat.div_unique _ 1000 _ (n mod 1000 - 1)); lia. }
    assert (H2 : (S (n + 999) / 1000 = S (n / 1000))%nat).
    { symmetry. apply (Nat.div_unique _ 1000 _ (n mod 1000)); lia. }
    lia.
Qed.

(** X7.  The loop runs the step of every iteration i = 0, 1, ... in order, and
    calls [print] right after the step of every iteration that is a
    multiple of 1000, and at no other time.  That makes
    (iterations + 999) / 1000 prints; 100 for 100000 iterations. *)
Theorem training_loop_output (DataSet : Type)
    (next_batch : DataSet -> nat -> (matrix * list Z) * DataSet)
    (omega : R) (test_images : ndarray) (test_labels : list Z) (held_out : nat)
    (iterations : nat) (s : Session) (ds : DataSet) :
  source_ok next_batch ->
  held_out_ok held_out test_images test_labels ->
  exists w' : World DataSet,
    training_loop DataSet next_batch omega test_images test_labels iterations
      (mkWorld s ds []) = OK w' /\
    map action_of (trace w')
    = flat_map (fun i => Step i :: (if prints_at i then [Print i] else []))
               (seq 0 iterations) /\
    length (filter is_print (map action_of (trace w'))) = ((iterations + 999) / 1000)%nat.
Proof.
  intros Hsource Hheld.
  destruct (fold_body_actions DataSet next_batch omega test_images test_labels held_out
              Hsource Hheld iterations 0 (mkWorld s ds [])) as (w' & H1 & H2).
  exists w'. split; [exact H1|]. cbn [trace map app] in H2.
  split; [exact H2|].
  rewrite H2, count_print_actions, length_map. apply count_prints.
Qed.

Lemma training_loop_output_witness :
  exists w' : World unit,
    training_loop unit blank_source learning_rate two_blank_images [0%Z; 3%Z] 3
      (mkWorld zero_session tt []) = OK w' /\
    map action_of (trace w')
    = flat_map (fun i => Step i :: (if prints_at i then [Print i] else [])) (seq 0 3) /\
    length (filter is_print (map action_of (trace w'))) = ((3 + 999) / 1000)%nat.
Proof.
  apply (training_loop_output unit blank_source learning_rate
           two_blank_images [0%Z; 3%Z] 2 3 zero_session tt).
  - apply blank_source_ok.
  - apply two_blank_images_ok.
Defined.

(** X8.  Evaluation only observes: with the same batches, the variables and the
    data source at the end of the loop are the same whatever held-out data
    the loop evaluates on. *)
Theorem evaluation_does_not_influence_training (DataSet : Type)
    (next_batch : DataSet -> nat -> (matrix * list Z) * DataSet)
    (omega : R) (images1 images2 : ndarray) (labels1 labels2 : list Z) (n1 n2 : nat)
    (iterations : nat) (s : Session) (ds : DataSet) :
  source_ok next_batch ->
  held_out_ok n1 images1 labels1 ->
  held_out_ok n2 images2 labels2 ->
  exists w1 w2 : World DataSet,
    training_loop DataSet next_batch omega images1 labels1 iterations (mkWorld s ds []) = OK w1 /\
    training_loop DataSet next_batch omega images2 labels2 iterations (mkWorld s ds []) = OK w2 /\
    session w1 = session w2 /\ train_set w1 = train_set w2.
Proof.
  intros Hsource H1 H2.
  destruct (fold_body_session DataSet next_batch omega images1 labels1 n1 Hsource H1
              iterations 0 (mkWorld s ds [])) as (w1 & Hw1 & Hs1).
  destruct (fold_body_session DataSet next_batch omega images2 labels2 n2 Hsource H2
              iterations 0 (mkWorld s ds [])) as (w2 & Hw2 & Hs2).
  exists w1, w2. split; [exact Hw1|]. split; [exact Hw2|].
  rewrite <- Hs2 in Hs1. now inversion Hs1.
Qed.

Lemma evaluation_does_not_influence_training_witness :
  exists w1 w2 : World unit,
    training_loop unit blank_source learning_rate two_blank_images [0%Z; 3%Z] 3
      (mkWorld zero_session tt []) = OK w1 /\
    training_loop unit blank_source learning_rate two_blank_images [5%Z; 7%Z] 3
      (mkWorld zero_session tt []) = OK w2 /\
    session w1 = session w2 /\ train_set w1 = train_set w2.
Proof.
  apply (evaluation_does_not_influence_training unit blank_source learning_rate
           two_blank_images two_blank_images [0%Z; 3%Z] [5%Z; 7%Z] 2 2 3 zero_session tt).
  - apply blank_source_ok.
  - apply two_blank_images_ok.
  - repeat split.
Defined.

(** X9.  Training in two runs, the second started from the world the first left,
    ends with the variables and the data source of one run of the total
    length. *)
Theorem training_runs_compose (DataSet : Type)
    (next_batch : DataSet -> nat -> (matrix * list Z) * DataSet)
    (omega : R) (test_images : ndarray) (test_labels : list Z) (held_out : nat)
    (first second : nat) (s : Session) (ds : DataSet) :
  source_ok next_batch ->
  held_out_ok held_out test_images test_labels ->
  exists w1 w2 w : World DataSet,
    training_loop DataSet next_batch omega test_images test_labels first
      (mkWorld s ds []) = OK w1 /\
    training_loop DataSet next_batch omega test_images test_labels second w1 = OK w2 /\
    training_loop DataSet next_batch omega test_images test_labels (first + second)
      (mkWorld s ds []) = OK w /\
    session w2 = session w /\ train_set w2 = train_set w.
Proof.
  intros Hsource Hheld.
  destruct (fold_body_session DataSet next_batch omega test_images test_labels held_out
              Hsource Hheld first 0 (mkWorld s ds [])) as (w1 & Hw1 & Hs1).
  destruct (fold_body_session DataSet next_batch omega test_images test_labels held_out
              Hsource Hheld second 0 w1) as (w2 & Hw2 & Hs2).
  destruct (fold_body_session DataSet next_batch omega test_images test_labels held_out
              Hsource Hheld (first + second) 0 (mkWorld s ds [])) as (w & Hw & Hs).
  exists w1, w2, w. repeat (split; [assumption|]).
  cbn [session train_set] in Hs1, Hs.
  rewrite (steps_add DataSet next_batch omega first second s ds) in Hs.
  rewrite <- Hs1 in Hs. cbn [fst snd] in Hs. rewrite <- Hs2 in Hs.
  now inversion Hs.
Qed.

Lemma training_runs_compose_witness :
  exists w1 w2 w : World unit,
    training_loop unit blank_source learning_rate two_blank_images [0%Z; 3%Z] 2
      (mkWorld zero_session tt []) = OK w1 /\
    training_loop unit blank_source learning_rate two_blank_images [0%Z; 3%Z] 1 w1 = OK w2 /\
    training_loop unit blank_source learning_rate two_blank_images [0%Z; 3%Z] (2 + 1)
      (mkWorld zero_session tt []) = OK w /\
    session w2 = session w /\ train_set w2 = train_set w.
Proof.
  apply (training_runs_compose unit blank_source learning_rate
           two_blank_images [0%Z; 3%Z] 2 2 1 zero_session tt).
  - apply blank_source_ok.
  - apply two_blank_images_ok.
Defined.

(** ** The reshape in [evaluate] *)

Lemma rows_of_S (n k : nat) (d : list R) :
  rows_of (S n) k d = firstn k d :: rows_of n k (skipn k d).
Proof.
  unfold rows_of. cbn [seq map]. f_equal.
  rewrite <- seq_shift, map_map. apply map_ext. intros i.
  rewrite skipn_skipn. do 2 f_equal. lia.
Qed.

Lemma concat_rows_of (n k : nat) (d : list R) :
  length d = (n * k)%nat -> concat (rows_of n k d) = d.
Proof.
  revert d. induction n as [|n IH]; intros d Hd.
  - destruct d; [reflexivity|discriminate].
  - rewrite rows_of_S. cbn [concat]. rewrite IH.
    + apply firstn_skipn.
    + rewrite length_skipn, Hd. simpl. lia.
Qed.

(** X10.  [evaluate] hands every pixel of the held-out images to the network
    exactly once and in order: the value it returns is the accuracy of
    [pred] on one row of 784 entries per image, and these rows laid end to
    end are the held-out data. *)
Theorem evaluate_feeds_every_pixel (omega : R) (n : nat) (test_images : ndarray)
    (test_labels : list Z) (s : Session) :
  held_out_ok n test_images test_labels ->
  exists rows : list (list R),
    evaluate omega test_images test_labels Fetch_pred inp s
    = OK (np_mean (np_equal (pred s rows) test_labels), s) /\
    length rows = n /\
    Forall (fun row => length row = n_in) rows /\
    concat rows = data test_images.
Proof.
  intros (_ & Hd & _).
  exists (rows_of n n_in (data test_images)).
  split; [now apply evaluate_pred|].
  split; [apply rows_of_length|]. split; [now apply rows_of_row_length|].
  now apply concat_rows_of.
Qed.

Lemma evaluate_feeds_every_pixel_witness :
  exists rows : list (list R),
    evaluate learning_rate two_blank_images [0%Z; 3%Z] Fetch_pred inp zero_session
    = OK (np_mean (np_equal (pred zero_session rows) [0%Z; 3%Z]), zero_session) /\
    length rows = 2%nat /\
    Forall (fun row => length row = n_in) rows /\
    concat rows = data two_blank_images.
Proof.
  apply (evaluate_feeds_every_pixel learning_rate 2 two_blank_images [0%Z; 3%Z] zero_session).
  apply two_blank_images_ok.
Defined.

(** ** A small loss means correct predictions *)




Lemma map2_combine {A B C : Type} (f : A -> B -> C) (xs : list A) (ys : list B) :
  map2 f xs ys = map (fun q => f (fst q) (snd q)) (combine xs ys).
Proof.
  revert ys. induction xs as [|x xs IH]; intros [|y ys]; simpl; try reflexivity.
  now rewrite IH.
Qed.






(** ** Repeated small steps on one batch *)






